(** * The TAU compiler knowledgebase (tau/cf/compiler/__init__.py)

    A shallow embedding of the compiler roles, compiler families and the
    compiler-information index of TAU Commander, with the properties of
    command lookup, registration and iteration that the specification
    states about them. *)

From Stdlib Require Import Ascii String ZArith.
From stdpp Require Import gmap strings list fin_maps sorting.

Local Open Scope string_scope.
Local Open Scope list_scope.
Local Open Scope nat_scope.

(** ** Python strings *)

Module PyStr.

(** [b.startswith(a)] *)
Fixpoint starts_with (a b : string) : bool :=
  match a, b with
  | EmptyString, _ => true
  | String _ _, EmptyString => false
  | String x a', String y b' => Ascii.eqb x y && starts_with a' b'
  end.

(** [a in b] on two strings: [a] occurs in [b] as a contiguous run. *)
Fixpoint str_in (a b : string) : bool :=
  match b with
  | EmptyString => starts_with a EmptyString
  | String _ b' => starts_with a b || str_in a b'
  end.

(** [p.rfind(ch)], counting positions from [i]: the highest index of
    [ch], or -1 when [ch] does not occur. *)
Fixpoint rfind_from (i : Z) (ch : ascii) (p : string) : Z :=
  match p with
  | EmptyString => (-1)%Z
  | String c p' =>
      let r := rfind_from (i + 1) ch p' in
      if (0 <=? r)%Z then r else if Ascii.eqb c ch then i else (-1)%Z
  end.

Definition rfind (p : string) (ch : ascii) : Z := rfind_from 0 ch p.

(** [p[i:]] for a non-negative [i]. *)
Fixpoint slice_from (i : nat) (p : string) : string :=
  match i, p with
  | O, _ => p
  | S _, EmptyString => EmptyString
  | S i', String _ p' => slice_from i' p'
  end.

(** [os.path.basename] of posixpath:
    [i = p.rfind('/') + 1; return p[i:]]. *)
Definition basename (p : string) : string :=
  slice_from (Z.to_nat (rfind p "/"%char + 1)) p.

(** [ch in p] for a single character. *)
Fixpoint has_char (ch : ascii) (p : string) : bool :=
  match p with
  | EmptyString => false
  | String c p' => Ascii.eqb c ch || has_char ch p'
  end.

End PyStr.
Export PyStr.

(** ** Exceptions *)

Inductive exn : Type :=
| KeyError
| InternalError (msg : string)
| TypeError.

Abbreviation result A := (exn + A)%type.

(** ** The records of the knowledgebase *)

(** [CompilerRole]: how a compiler is used in the build. *)
Record CompilerRole : Type := mkRole {
  keyword : string;
  language : string;
  required : bool
}.

(** [CompilerInfo].  [KeyedRecord] keeps one [CompilerFamily] instance per
    name, so the reference [self.family] is the family's key. *)
Record CompilerInfo : Type := mkInfo {
  command : string;
  family : string;
  role : CompilerRole;
  short_descr : string
}.

Global Instance exn_eq_dec : EqDecision exn.
Proof. solve_decision. Defined.
Global Instance CompilerRole_eq_dec : EqDecision CompilerRole.
Proof. solve_decision. Defined.
Global Instance CompilerInfo_eq_dec : EqDecision CompilerInfo.
Proof. solve_decision. Defined.

(** [CompilerInfo.__len__] *)
Definition CompilerInfo_len (inst : CompilerInfo) : nat :=
  String.length (command inst).

(** Python's [max(iterable, key=key)]: the running maximum is replaced
    only by an item whose key is strictly greater, so the first maximal
    item of the iteration is returned. *)
Fixpoint max_from {A : Type} (key : A → nat) (best : A) (l : list A) : A :=
  match l with
  | [] => best
  | x :: l' => if (key best <? key x)%nat then max_from key x l' else max_from key best l'
  end.

(** [CompilerInfo.find], over the instances that [cls.all()] iterates. *)
Definition find (all : list CompilerInfo) (command0 : string) : result CompilerInfo :=
  let cmd := basename command0 in
  match list_find (λ instance, command instance = cmd) all with
  | Some (_, instance) => inr instance
  | None =>
      let candidates := filter (λ inst, str_in (command inst) cmd) all in
      match candidates with
      | [] => inl KeyError
      | c :: cs => inr (max_from CompilerInfo_len c cs)
      end
  end.

(** ** Python list objects

    The flag lists are mutable list objects: an attribute holds the
    address of a list, and two attributes that hold the same address share
    every mutation.  The store of list objects is indexed by address; a new
    object takes the next address. *)

Abbreviation loc := nat.

Definition alloc (heap : list (list string)) (items : list string)
  : list (list string) * loc :=
  (heap ++ [items], length heap).

(** [list(x)]: a new list object with the items of the list at [src]. *)
Definition copy_list (heap : list (list string)) (src : loc)
  : option (list (list string) * loc) :=
  items ← heap !! src; Some (alloc heap items).

(** [CompilerFamily]: the two dictionaries, and the addresses of the five
    flag lists. *)
Record CompilerFamily : Type := mkFamily {
  name : string;
  _info_by_command : gmap string CompilerInfo;
  _info_by_role : gmap string (list CompilerInfo);
  version_flags : loc;
  include_path_flags : loc;
  library_path_flags : loc;
  link_library_flags : loc;
  show_wrapper_flags : loc
}.

Inductive flag_attr : Type :=
| VersionFlags | IncludePathFlags | LibraryPathFlags | LinkLibraryFlags | ShowWrapperFlags.

Definition flags_of (a : flag_attr) (fam : CompilerFamily) : loc :=
  match a with
  | VersionFlags => version_flags fam
  | IncludePathFlags => include_path_flags fam
  | LibraryPathFlags => library_path_flags fam
  | LinkLibraryFlags => link_library_flags fam
  | ShowWrapperFlags => show_wrapper_flags fam
  end.

(** The state of the module: the list objects, and the instance stores
    that the metaclasses of [tau.cf] keep per class. *)
Record Registry : Type := mkRegistry {
  lists : list (list string);
  CompilerRole_instances : gmap string CompilerRole;
  CompilerFamily_instances : gmap string CompilerFamily;
  CompilerInfo_instances : list CompilerInfo
}.

(** The default values of [CompilerFamily.__init__] are five list objects
    made once, when the [def] is executed: [['--version']], [['-I']],
    [['-L']], [['-l']] and [[]]. *)
Definition default_flags (a : flag_attr) : loc :=
  match a with
  | VersionFlags => 0
  | IncludePathFlags => 1
  | LibraryPathFlags => 2
  | LinkLibraryFlags => 3
  | ShowWrapperFlags => 4
  end.

Definition module_start : Registry :=
  {| lists := [["--version"]; ["-I"]; ["-L"]; ["-l"]; []];
     CompilerRole_instances := ∅;
     CompilerFamily_instances := ∅;
     CompilerInfo_instances := [] |}.

(** A keyword argument of the constructor: left out, or a list object. *)
Inductive flag_arg : Type :=
| Omitted
| Passed (l : loc).

Definition arg_loc (a : flag_attr) (arg : flag_arg) : loc :=
  match arg with
  | Omitted => default_flags a
  | Passed l => l
  end.

(** [CompilerFamily.__init__]: two empty dictionaries and a copy of each
    of the five flag lists.  [None] when an argument is not a list. *)
Definition CompilerFamily_init (heap : list (list string)) (name0 : string)
    (version_flags0 include_path_flags0 library_path_flags0
     link_library_flags0 show_wrapper_flags0 : flag_arg)
  : option (list (list string) * CompilerFamily) :=
  '(h1, vf) ← copy_list heap (arg_loc VersionFlags version_flags0);
  '(h2, ipf) ← copy_list h1 (arg_loc IncludePathFlags include_path_flags0);
  '(h3, lpf) ← copy_list h2 (arg_loc LibraryPathFlags library_path_flags0);
  '(h4, llf) ← copy_list h3 (arg_loc LinkLibraryFlags link_library_flags0);
  '(h5, swf) ← copy_list h4 (arg_loc ShowWrapperFlags show_wrapper_flags0);
  Some (h5, {| name := name0;
               _info_by_command := ∅;
               _info_by_role := ∅;
               version_flags := vf;
               include_path_flags := ipf;
               library_path_flags := lpf;
               link_library_flags := llf;
               show_wrapper_flags := swf |}).

(** [CompilerInfo.__init__] *)
Definition CompilerInfo_init (command0 : string) (family0 : CompilerFamily)
    (role0 : CompilerRole) : CompilerInfo :=
  {| command := command0;
     family := name family0;
     role := role0;
     short_descr := name family0 +:+ " " +:+ language role0 +:+ " compiler" |}.

Definition set_info (self : CompilerFamily) (role0 : CompilerRole)
    (info : CompilerInfo) : CompilerFamily :=
  {| name := name self;
     _info_by_command := <[command info := info]> (_info_by_command self);
     _info_by_role :=
       <[keyword role0 := default [] (_info_by_role self !! keyword role0) ++ [info]]>
         (_info_by_role self);
     version_flags := version_flags self;
     include_path_flags := include_path_flags self;
     library_path_flags := library_path_flags self;
     link_library_flags := link_library_flags self;
     show_wrapper_flags := show_wrapper_flags self |}.

Definition already_member (command0 : string) (self : CompilerFamily) : exn :=
  InternalError ("Command " +:+ command0 +:+ " already a member of " +:+ name self).

(** Modelled from the spec: the metaclass of [tau.cf.TrackedInstance],
    whose source is not at hand.  Creating a [CompilerInfo] "inserts into the
    global index": the new object joins the instances of its class. *)
Definition track (instances : list CompilerInfo) (info : CompilerInfo)
  : list CompilerInfo :=
  instances ++ [info].

(** [CompilerFamily.add].  The family object [self] and the instances of
    [CompilerInfo] are threaded through the loop over [commands]; an
    exception leaves them as the loop had made them so far. *)
Fixpoint add (self : CompilerFamily) (instances : list CompilerInfo)
    (role0 : CompilerRole) (commands : list string)
  : CompilerFamily * list CompilerInfo * result unit :=
  match commands with
  | [] => (self, instances, inr tt)
  | command0 :: commands' =>
      match _info_by_command self !! command0 with
      | Some _ => (self, instances, inl (already_member command0 self))
      | None =>
          let info := CompilerInfo_init command0 self role0 in
          add (set_info self role0 info) (track instances info) role0 commands'
      end
  end.

(** The key of [CompilerFamily.members]: a command string or a role. *)
Inductive member_key : Type :=
| ByCommand (command0 : string)
| ByRole (role0 : CompilerRole).

Inductive member_value : Type :=
| OneInfo (info : CompilerInfo)
| InfoList (infos : list CompilerInfo).

Definition dict_get {V : Type} (d : gmap string V) (k : string) : result V :=
  match d !! k with
  | Some v => inr v
  | None => inl KeyError
  end.

(** [CompilerFamily.members] *)
Definition members (self : CompilerFamily) (key : member_key) : result member_value :=
  match key with
  | ByCommand c =>
      match dict_get (_info_by_command self) c with
      | inr info => inr (OneInfo info)
      | inl e => inl e
      end
  | ByRole r =>
      match dict_get (_info_by_role self) (keyword r) with
      | inr infos => inr (InfoList infos)
      | inl e => inl e
      end
  end.

(** ** The instance stores *)

(** Modelled from the spec: the iteration of the instance stores of
    [tau.cf.TrackedInstance] and [tau.cf.KeyedRecord], whose source is not
    at hand.  The spec calls the index "an unordered store" whose iteration
    order is incidental: [cls.all()] and [itervalues()] visit every stored
    instance once, in an order that the store chooses. *)
Class Stores : Type := {
  set_iter : list CompilerInfo → list CompilerInfo;
  set_iter_perm : ∀ l, set_iter l ≡ₚ l;
  dict_itervalues : ∀ {V : Type}, gmap string V → list V;
  dict_itervalues_perm :
    ∀ (V : Type) (d : gmap string V), dict_itervalues d ≡ₚ (map_to_list d).*2
}.

(** Modelled from the spec: [tau.cf.target.host.preferred_compilers], whose
    source is not at hand: "a platform/host policy lookup external to this
    core" that designates one family.  The family is given by its key. *)
Class Host : Type := {
  preferred_compilers : string
}.

(** Modelled from the spec: the constructor call of a [tau.cf.KeyedRecord]
    class, whose source is not at hand.  Keys are unique ("registered in a
    process-wide keyed set, looked up by keyword"): a call with a key that
    has an instance gives that instance, any other call runs [__init__]
    and stores the new instance under its key. *)
Definition CompilerRole_new (s : Registry) (keyword0 language0 : string)
    (required0 : bool) : Registry * CompilerRole :=
  match CompilerRole_instances s !! keyword0 with
  | Some instance => (s, instance)
  | None =>
      let instance := mkRole keyword0 language0 required0 in
      ({| lists := lists s;
          CompilerRole_instances := <[keyword0 := instance]> (CompilerRole_instances s);
          CompilerFamily_instances := CompilerFamily_instances s;
          CompilerInfo_instances := CompilerInfo_instances s |}, instance)
  end.

Definition CompilerFamily_new (s : Registry) (name0 : string)
    (vf ipf lpf llf swf : flag_arg) : Registry * result CompilerFamily :=
  match CompilerFamily_instances s !! name0 with
  | Some instance => (s, inr instance)
  | None =>
      match CompilerFamily_init (lists s) name0 vf ipf lpf llf swf with
      | None => (s, inl TypeError)
      | Some (heap, instance) =>
          ({| lists := heap;
              CompilerRole_instances := CompilerRole_instances s;
              CompilerFamily_instances := <[name0 := instance]> (CompilerFamily_instances s);
              CompilerInfo_instances := CompilerInfo_instances s |}, inr instance)
      end
  end.

(** [fam.add(role, *commands)] on the family object with key [fam]. *)
Definition Registry_add (s : Registry) (fam : string) (role0 : CompilerRole)
    (commands : list string) : Registry * result unit :=
  match CompilerFamily_instances s !! fam with
  | None => (s, inl KeyError)
  | Some self =>
      let '(self', instances, r) := add self (CompilerInfo_instances s) role0 commands in
      ({| lists := lists s;
          CompilerRole_instances := CompilerRole_instances s;
          CompilerFamily_instances := <[fam := self']> (CompilerFamily_instances s);
          CompilerInfo_instances := instances |}, r)
  end.

(** A list display [[a, b, ...]] makes a new list object. *)
Definition Registry_list (s : Registry) (items : list string) : Registry * loc :=
  let '(heap, l) := alloc (lists s) items in
  ({| lists := heap;
      CompilerRole_instances := CompilerRole_instances s;
      CompilerFamily_instances := CompilerFamily_instances s;
      CompilerInfo_instances := CompilerInfo_instances s |}, l).

(** Any mutation of the list object at [l] (append, item or slice
    assignment, ...) leaves [items] in it. *)
Definition mutate_list (s : Registry) (l : loc) (items : list string) : Registry :=
  {| lists := <[l := items]> (lists s);
     CompilerRole_instances := CompilerRole_instances s;
     CompilerFamily_instances := CompilerFamily_instances s;
     CompilerInfo_instances := CompilerInfo_instances s |}.

(** The statements that change the state of the module. *)
Inductive Op : Type :=
| MakeRole (keyword0 language0 : string) (required0 : bool)
| MakeList (items : list string)
| MutateList (l : loc) (items : list string)
| MakeFamily (name0 : string) (vf ipf lpf llf swf : flag_arg)
| AddCommands (fam : string) (role0 : CompilerRole) (commands : list string).

Definition step (s : Registry) (op : Op) : Registry * result unit :=
  match op with
  | MakeRole k l r => ((CompilerRole_new s k l r).1, inr tt)
  | MakeList items => ((Registry_list s items).1, inr tt)
  | MutateList l items => (mutate_list s l items, inr tt)
  | MakeFamily n vf ipf lpf llf swf =>
      match CompilerFamily_new s n vf ipf lpf llf swf with
      | (s', inr _) => (s', inr tt)
      | (s', inl e) => (s', inl e)
      end
  | AddCommands fam r commands => Registry_add s fam r commands
  end.

(** A run goes on after a statement that raised, from the state that the
    statement left. *)
Definition run (ops : list Op) (s : Registry) : Registry :=
  foldl (λ s op, (step s op).1) s ops.

Fixpoint outcomes (ops : list Op) (s : Registry) : list (result unit) :=
  match ops with
  | [] => []
  | op :: ops' => (step s op).2 :: outcomes ops' (step s op).1
  end.

(** ** The seed data at the end of the module *)

Definition CC_ROLE : CompilerRole := mkRole "CC" "C" true.
Definition CXX_ROLE : CompilerRole := mkRole "CXX" "C++" true.
Definition FC_ROLE : CompilerRole := mkRole "FC" "Fortran" true.
Definition UPC_ROLE : CompilerRole := mkRole "UPC" "Universal Parallel C" false.

Definition role_seed : list Op :=
  [ MakeRole "CC" "C" true;
    MakeRole "CXX" "C++" true;
    MakeRole "FC" "Fortran" true;
    MakeRole "UPC" "Universal Parallel C" false ].

Definition family_seed : list Op :=
  [ MakeFamily "System" Omitted Omitted Omitted Omitted Omitted;
    AddCommands "System" CC_ROLE ["cc"];
    AddCommands "System" CXX_ROLE ["c++"; "cxx"; "CC"];
    AddCommands "System" FC_ROLE ["ftn"; "f90"; "f77"];
    AddCommands "System" UPC_ROLE ["upc"];
    MakeFamily "GNU" Omitted Omitted Omitted Omitted Omitted;
    AddCommands "GNU" CC_ROLE ["gcc"];
    AddCommands "GNU" CXX_ROLE ["g++"];
    AddCommands "GNU" FC_ROLE ["gfortran"];
    AddCommands "GNU" UPC_ROLE ["gupc"];
    MakeFamily "Intel" Omitted Omitted Omitted Omitted Omitted;
    AddCommands "Intel" CC_ROLE ["icc"];
    AddCommands "Intel" CXX_ROLE ["icpc"];
    AddCommands "Intel" FC_ROLE ["ifort"];
    MakeFamily "PGI" Omitted Omitted Omitted Omitted Omitted;
    AddCommands "PGI" CC_ROLE ["pgcc"];
    AddCommands "PGI" CXX_ROLE ["pgc++"; "pgcxx"; "pgCC"];
    AddCommands "PGI" FC_ROLE ["pgf90"; "pgf77"];
    MakeFamily "IBM" Omitted Omitted Omitted Omitted Omitted;
    AddCommands "IBM" CC_ROLE ["xlc"];
    AddCommands "IBM" CXX_ROLE ["xlc++"; "xlC"];
    AddCommands "IBM" FC_ROLE ["xlf"];
    MakeList ["-craype-verbose"];
    MakeFamily "Cray" Omitted Omitted Omitted Omitted (Passed 30);
    AddCommands "Cray" CC_ROLE ["cc"];
    AddCommands "Cray" CXX_ROLE ["CC"; "c++"; "cxx"];
    AddCommands "Cray" FC_ROLE ["ftn"; "f90"; "f77"];
    AddCommands "Cray" UPC_ROLE ["upc"] ].

Definition module_body : list Op := role_seed ++ family_seed.

(** The module once it is imported. *)
Definition loaded : Registry := run module_body module_start.

Definition family_names_seed : list string :=
  ["System"; "GNU"; "Intel"; "PGI"; "IBM"; "Cray"].

(** ** The class methods that iterate the stores *)

Section Iteration.
Context {St : Stores} {H : Host}.

(** [TrackedInstance.all] on [CompilerInfo] *)
Definition CompilerInfo_all (s : Registry) : list CompilerInfo :=
  set_iter (CompilerInfo_instances s).

Definition CompilerInfo_find (s : Registry) (command0 : string)
  : result CompilerInfo :=
  find (CompilerInfo_all s) command0.

(** [KeyedRecord.all] on [CompilerRole] *)
Definition CompilerRole_all (s : Registry) : list CompilerRole :=
  dict_itervalues (CompilerRole_instances s).

(** [CompilerRole.tau_required] *)
Definition tau_required (s : Registry) : list CompilerRole :=
  filter (λ role0, required role0) (CompilerRole_all s).

(** [CompilerFamily.preferred] *)
Definition preferred (s : Registry) : result CompilerFamily :=
  dict_get (CompilerFamily_instances s) preferred_compilers.

(** [CompilerFamily.all]: the values that the generator yields.  One
    instance is kept per key, so [instance is not preferred] compares
    the keys. *)
Definition CompilerFamily_all (s : Registry) : result (list CompilerFamily) :=
  match preferred s with
  | inl e => inl e
  | inr p =>
      inr (p :: filter (λ instance, name instance ≠ name p)
                       (dict_itervalues (CompilerFamily_instances s)))
  end.

End Iteration.

(** Two stores: one that iterates in the order of insertion, and one that
    iterates its set from the newest instance to the oldest. *)
Definition insertion_order : Stores :=
  {| set_iter := λ l, l;
     set_iter_perm := λ l, Permutation_refl l;
     dict_itervalues := λ V d, (map_to_list d).*2;
     dict_itervalues_perm := λ V d, Permutation_refl _ |}.

Definition newest_first : Stores :=
  {| set_iter := λ l, reverse l;
     set_iter_perm := λ l, reverse_Permutation l;
     dict_itervalues := λ V d, (map_to_list d).*2;
     dict_itervalues_perm := λ V d, Permutation_refl _ |}.

(** ** Notions used by the statements *)

(** [a] occurs in [b]: what [str_in] decides. *)
Definition substring_of (a b : string) : Prop :=
  ∃ u v, b = u +:+ a +:+ v.

(** [r] is the first instance of the sequence [order] that has the longest
    command among the instances whose command occurs in [cmd]. *)
Definition first_longest (order : list CompilerInfo) (cmd : string)
    (r : CompilerInfo) : Prop :=
  ∃ before after,
    order = before ++ r :: after ∧
    substring_of (command r) cmd ∧
    (∀ x, x ∈ before → substring_of (command x) cmd →
          CompilerInfo_len x < CompilerInfo_len r) ∧
    (∀ x, x ∈ after → substring_of (command x) cmd →
          CompilerInfo_len x ≤ CompilerInfo_len r).

(** The state of a module whose statements are constructor calls, [add]
    calls and mutations of lists: the dictionaries of the families and the
    instances of [CompilerInfo] describe the same registrations, and no
    list object is held by two flag attributes or is also a default. *)
Record consistent (s : Registry) : Prop := {
  family_key : ∀ k f, CompilerFamily_instances s !! k = Some f → name f = k;
  command_key : ∀ k f c i,
    CompilerFamily_instances s !! k = Some f → _info_by_command f !! c = Some i →
    command i = c ∧ family i = k ∧ i ∈ CompilerInfo_instances s;
  info_owner : ∀ i, i ∈ CompilerInfo_instances s →
    ∃ f, CompilerFamily_instances s !! family i = Some f ∧
         _info_by_command f !! command i = Some i;
  info_once : NoDup (CompilerInfo_instances s);
  defaults_live : 5 ≤ length (lists s);
  flags_live : ∀ k f a,
    CompilerFamily_instances s !! k = Some f →
    5 ≤ flags_of a f < length (lists s);
  flags_apart : ∀ k1 f1 a1 k2 f2 a2,
    CompilerFamily_instances s !! k1 = Some f1 →
    CompilerFamily_instances s !! k2 = Some f2 →
    flags_of a1 f1 = flags_of a2 f2 → k1 = k2 ∧ a1 = a2
}.

Definition makes_role (op : Op) : bool :=
  match op with
  | MakeRole _ _ _ => true
  | _ => false
  end.

(** The states that constructor calls, [add] calls, list displays and list
    mutations reach from the start of the module. *)
Definition reachable (s : Registry) : Prop :=
  ∃ ops, s = run ops module_start.

(** The family object with key [k], as it stands in [s]. *)
Definition family_object (s : Registry) (k : string) : CompilerFamily :=
  default (mkFamily k ∅ ∅ 0 0 0 0 0) (CompilerFamily_instances s !! k).

(** The module constants, once the module is imported. *)
Definition SYSTEM_COMPILERS : CompilerFamily := family_object loaded "System".
Definition GNU_COMPILERS : CompilerFamily := family_object loaded "GNU".
Definition CRAY_COMPILERS : CompilerFamily := family_object loaded "Cray".

(** ** The other methods of the classes *)

(** [CompilerFamily.__contains__]: a string is looked up among the
    commands, a role among the roles that are filled. *)
Definition contains (self : CompilerFamily) (item : member_key) : bool :=
  match item with
  | ByCommand c => bool_decide (is_Some (_info_by_command self !! c))
  | ByRole r => bool_decide (is_Some (_info_by_role self !! keyword r))
  end.

(** Modelled from the spec: [KeyedRecord.__str__], whose source is not at
    hand; [family_names] is the "list of all family names", so the string
    of a family is its key. *)
Definition CompilerFamily_str (self : CompilerFamily) : string := name self.

(** [sorted] on a list of byte strings.  The order of [str] is the
    lexicographic order of the bytes, under which a list has one sorted
    arrangement, the one that every sorting algorithm returns. *)
Definition sorted (l : list string) : list string := merge_sort String.le l.

Section MoreIteration.
Context {St : Stores} {H : Host}.

(** [CompilerFamily.__iter__] *)
Definition CompilerFamily_iter (self : CompilerFamily) : list CompilerInfo :=
  dict_itervalues (_info_by_command self).

(** [CompilerFamily.family_names] *)
Definition family_names (s : Registry) : result (list string) :=
  match CompilerFamily_all s with
  | inl e => inl e
  | inr families => inr (sorted (CompilerFamily_str <$> families))
  end.

End MoreIteration.

(** The argument that the constructor received for a flag attribute. *)
Definition flag_arg_of (a : flag_attr) (vf ipf lpf llf swf : flag_arg) : flag_arg :=
  match a with
  | VersionFlags => vf
  | IncludePathFlags => ipf
  | LibraryPathFlags => lpf
  | LinkLibraryFlags => llf
  | ShowWrapperFlags => swf
  end.

(** The two dictionaries of a family tell the same story: a role that is
    filled has a list of different instances of that role, each held
    under its command, and every instance held under a command is in the
    list of its role and carries the description that [__init__] made. *)
Record family_coherent (f : CompilerFamily) : Prop := {
  role_lists : ∀ kw l, _info_by_role f !! kw = Some l →
    l ≠ [] ∧ NoDup l ∧
    ∀ i, i ∈ l → keyword (role i) = kw ∧ _info_by_command f !! command i = Some i;
  role_listed : ∀ c i, _info_by_command f !! c = Some i →
    ∃ l, _info_by_role f !! keyword (role i) = Some l ∧ i ∈ l;
  described : ∀ c i, _info_by_command f !! c = Some i →
    command i = c ∧ family i = name f ∧
    short_descr i = name f +:+ " " +:+ language (role i) +:+ " compiler"
}.

Definition families_coherent (s : Registry) : Prop :=
  ∀ k f, CompilerFamily_instances s !! k = Some f → family_coherent f.

(** A decidable statement about closed terms, settled by evaluation. *)
Ltac by_evaluation := apply (bool_decide_unpack _); vm_compute; exact I.

(** ** Strings *)

Lemma starts_with_spec (a b : string) :
  starts_with a b = true ↔ ∃ v, b = a +:+ v.
Proof.
  revert b. induction a as [|x a IH]; intros b; simpl.
  - split; [intros _; by exists b | done].
  - destruct b as [|y b]; simpl.
    + split; [done | by intros [v ?]].
    + rewrite andb_true_iff, Ascii.eqb_eq, IH. split.
      * intros [-> [v ->]]. by exists v.
      * intros [v Hv]. injection Hv as -> ->. eauto.
Qed.

Lemma starts_with_str_in (a b : string) :
  starts_with a b = true → str_in a b = true.
Proof. destruct b; simpl; [done | intros ->; done]. Qed.

Lemma str_in_spec (a b : string) :
  str_in a b = true ↔ substring_of a b.
Proof.
  unfold substring_of. split.
  - induction b as [|y b IH]; simpl.
    + intros [v Hv]%starts_with_spec. exists "", v. done.
    + intros [[v Hv]%starts_with_spec | Hin]%orb_true_iff.
      * exists "", v. done.
      * destruct (IH Hin) as (u & v & ->). by exists (String y u), v.
  - intros (u & v & ->). induction u as [|y u IH]; simpl.
    + apply starts_with_str_in, starts_with_spec. by exists v.
    + rewrite IH. apply orb_true_r.
Qed.

Lemma append_empty_r (a : string) : a +:+ "" = a.
Proof.
  induction a as [|x a IH]; [done |].
  change (String x (a +:+ "") = String x a). by rewrite IH.
Qed.

Lemma substring_of_refl (a : string) : substring_of a a.
Proof. exists "", "". symmetry. exact (append_empty_r a). Qed.

(** A name without a slash is its own final segment. *)
Lemma rfind_from_absent (i : Z) (ch : ascii) (p : string) :
  has_char ch p = false → rfind_from i ch p = (-1)%Z.
Proof.
  revert i. induction p as [|c p IH]; intros i; simpl; [done |].
  intros [Hc Hp]%orb_false_iff. rewrite (IH _ Hp), Hc. done.
Qed.

Lemma basename_plain (c : string) :
  has_char "/" c = false → basename c = c.
Proof.
  intros Hc. unfold basename, rfind. by rewrite rfind_from_absent.
Qed.

Lemma rfind_from_last (i : Z) (ch : ascii) (d c : string) :
  (0 ≤ i)%Z → has_char ch c = false →
  rfind_from i ch (d +:+ String ch c) = (i + Z.of_nat (String.length d))%Z.
Proof.
  revert i. induction d as [|x d IH]; intros i Hi Hc.
  - change ("" +:+ String ch c) with (String ch c). simpl.
    rewrite rfind_from_absent by done. simpl. rewrite Ascii.eqb_refl. lia.
  - change (String x d +:+ String ch c) with (String x (d +:+ String ch c)).
    simpl rfind_from. rewrite IH by (lia || done).
    destruct (0 <=? i + 1 + Z.of_nat (String.length d))%Z eqn:Hle.
    + simpl String.length. lia.
    + apply Z.leb_gt in Hle. lia.
Qed.

Lemma slice_from_past (d : string) (x : ascii) (rest : string) :
  slice_from (S (String.length d)) (d +:+ String x rest) = rest.
Proof.
  induction d as [|y d IH]; [done |].
  change (String y d +:+ String x rest) with (String y (d +:+ String x rest)).
  exact IH.
Qed.

(** The final segment of [d/c] is [c], for a name [c] without a slash. *)
Lemma basename_join (d c : string) :
  has_char "/" c = false → basename (d +:+ String "/" c) = c.
Proof.
  intros Hc. unfold basename, rfind. rewrite rfind_from_last by (lia || done).
  replace (Z.to_nat (0 + Z.of_nat (String.length d) + 1))
    with (S (String.length d)) by lia.
  apply slice_from_past.
Qed.

(** ** [max] and [find] *)

Section FindFacts.
Context {A : Type} (key : A → nat).

Lemma max_from_elem (best : A) (l : list A) :
  max_from key best l ∈ best :: l.
Proof.
  revert best. induction l as [|x l IH]; intros best; simpl.
  - set_solver.
  - destruct (key best <? key x).
    + right. apply IH.
    + pose proof (IH best) as [Hb | Hb]%elem_of_cons.
      * rewrite Hb. left.
      * right. by right.
Qed.

(** The maximum, with what the iteration passed before it and what came
    after it. *)
Lemma max_from_split (best : A) (l : list A) :
  ∃ before after,
    best :: l = before ++ max_from key best l :: after ∧
    (∀ x, x ∈ before → key x < key (max_from key best l)) ∧
    (∀ x, x ∈ after → key x ≤ key (max_from key best l)).
Proof.
  revert best. induction l as [|x l IH]; intros best; simpl.
  - exists [], []. split; [done |]. split; intros ? ?%elem_of_nil; done.
  - destruct (key best <? key x) eqn:Hlt.
    + apply Nat.ltb_lt in Hlt.
      destruct (IH x) as (before & after & Heq & Hb & Ha).
      exists (best :: before), after. rewrite Heq at 1. split; [done |].
      split; [| done].
      assert (key x ≤ key (max_from key x l)) as Hx.
      { assert (x ∈ before ++ max_from key x l :: after) as Hin
          by (rewrite <- Heq; left).
        apply elem_of_app in Hin as [Hin | [Hin | Hin]%elem_of_cons];
          [apply Hb in Hin; lia | rewrite <- Hin; lia | by apply Ha]. }
      intros y [-> | Hy]%elem_of_cons; [lia | by apply Hb].
    + apply Nat.ltb_ge in Hlt.
      destruct (IH best) as (before & after & Heq & Hb & Ha).
      destruct before as [|b before].
      * injection Heq as Hm Hl. exists [], (x :: l).
        split; [by rewrite <- Hm |]. split; [intros ? ?%elem_of_nil; done |].
        rewrite <- Hm. intros y [-> | Hy]%elem_of_cons; [done |].
        rewrite Hm. apply Ha. rewrite <- Hl. done.
      * injection Heq as <- Hl.
        exists (best :: x :: before), after.
        split; [simpl; do 2 f_equal; exact Hl |].
        split; [| done].
        assert (key best < key (max_from key best l)) as Hbest
          by (apply Hb; set_solver).
        intros y [-> | [-> | Hy]%elem_of_cons]%elem_of_cons;
          [done | lia | apply Hb; set_solver].
Qed.

End FindFacts.

Lemma filter_split {A : Type} (P : A → Prop) `{!∀ x, Decision (P x)}
    (l l1 : list A) (x : A) (l2 : list A) :
  filter P l = l1 ++ x :: l2 →
  ∃ k1 k2, l = k1 ++ x :: k2 ∧ filter P k1 = l1 ∧ filter P k2 = l2.
Proof.
  revert l1. induction l as [|y l IH]; intros l1.
  - rewrite filter_nil. by destruct l1.
  - rewrite filter_cons. destruct (decide (P y)) as [Hy | Hy].
    + destruct l1 as [|z l1]; simpl.
      * intros [= <- Hl]. exists [], l. by rewrite filter_nil.
      * intros [= <- Hl]. destruct (IH _ Hl) as (k1 & k2 & -> & <- & <-).
        exists (y :: k1), k2. by rewrite filter_cons_True.
    + intros Hl. destruct (IH _ Hl) as (k1 & k2 & -> & <- & <-).
      exists (y :: k1), k2. by rewrite filter_cons_False.
Qed.

Lemma candidate_spec (x : CompilerInfo) (cmd : string) :
  Is_true (str_in (command x) cmd) ↔ substring_of (command x) cmd.
Proof. rewrite Is_true_true. apply str_in_spec. Qed.

(** The loop over [cls.all()] returns the first instance with the command. *)
Lemma find_exact (all : list CompilerInfo) (p : string) (i : CompilerInfo) :
  i ∈ all → command i = basename p →
  ∃ n j, all !! n = Some j ∧ command j = basename p ∧
         (∀ m y, all !! m = Some y → m < n → command y ≠ basename p) ∧
         find all p = inr j.
Proof.
  intros Hi Hc.
  destruct (list_find_elem_of (λ instance, command instance = basename p) all i)
    as [[n j] Hf]; [done .. |].
  exists n, j. unfold find. rewrite Hf.
  apply list_find_Some in Hf as (Hn & Hj & Hfirst). eauto.
Qed.

Lemma find_no_exact (all : list CompilerInfo) (p : string) :
  (∀ i, i ∈ all → command i ≠ basename p) →
  find all p =
    match filter (λ inst, str_in (command inst) (basename p)) all with
    | [] => inl KeyError
    | c :: cs => inr (max_from CompilerInfo_len c cs)
    end.
Proof.
  intros Hno. unfold find.
  assert (list_find (λ instance, command instance = basename p) all = None) as ->;
    [| done].
  apply list_find_None, Forall_forall. exact Hno.
Qed.

Lemma find_approximate (all : list CompilerInfo) (p : string) :
  (∀ i, i ∈ all → command i ≠ basename p) →
  (∃ i, i ∈ all ∧ substring_of (command i) (basename p)) →
  ∃ r, find all p = inr r ∧ first_longest all (basename p) r.
Proof.
  intros Hno (i & Hi & Hsub). rewrite find_no_exact by done.
  destruct (filter _ all) as [|c cs] eqn:Hcand.
  - exfalso. eapply (filter_nil_not_elem_of _ _ i Hcand); [| done].
    by apply candidate_spec.
  - exists (max_from CompilerInfo_len c cs). split; [done |].
    destruct (max_from_split CompilerInfo_len c cs)
      as (before & after & Heq & Hb & Ha).
    rewrite Heq in Hcand.
    assert (max_from CompilerInfo_len c cs ∈ filter
              (λ inst, str_in (command inst) (basename p)) all) as Hmax
      by (rewrite Hcand; set_solver).
    apply list_elem_of_filter in Hmax as [Hmax%candidate_spec _].
    apply filter_split in Hcand as (k1 & k2 & -> & <- & <-).
    exists k1, k2. split; [done |]. split; [done |].
    split; intros x Hx Hxs; [apply Hb | apply Ha];
      apply list_elem_of_filter; split; try done; by apply candidate_spec.
Qed.

Lemma find_raises (all : list CompilerInfo) (p : string) (e : exn) :
  find all p = inl e ↔
  e = KeyError ∧ ∀ i, i ∈ all → ¬ substring_of (command i) (basename p).
Proof.
  split.
  - intros Hf.
    assert (∀ i, i ∈ all → command i ≠ basename p) as Hno.
    { intros i Hi Hc. destruct (find_exact all p i) as (? & ? & _ & _ & _ & ?);
        [done .. | congruence]. }
    rewrite find_no_exact in Hf by done.
    destruct (filter _ all) as [|c cs] eqn:Hcand; [| done].
    injection Hf as <-. split; [done |].
    intros i Hi Hsub%candidate_spec.
    by eapply (filter_nil_not_elem_of _ _ i Hcand).
  - intros [-> Hnone].
    rewrite find_no_exact.
    + destruct (filter _ all) as [|c cs] eqn:Hcand; [done |].
      assert (c ∈ filter (λ inst, str_in (command inst) (basename p)) all)
        as [Hc%candidate_spec Hin]%list_elem_of_filter
        by (rewrite Hcand; left).
      by destruct (Hnone c).
    + intros i Hi Hc. apply (Hnone i Hi). rewrite Hc. apply substring_of_refl.
Qed.

Lemma first_longest_longest (order : list CompilerInfo) (cmd : string)
    (r : CompilerInfo) :
  first_longest order cmd r →
  r ∈ order ∧ substring_of (command r) cmd ∧
  ∀ x, x ∈ order → substring_of (command x) cmd →
       CompilerInfo_len x ≤ CompilerInfo_len r.
Proof.
  intros (before & after & -> & Hr & Hb & Ha). split; [set_solver |].
  split; [done |].
  intros x [Hx | [-> | Hx]%elem_of_cons]%elem_of_app Hs;
    [apply Nat.lt_le_incl; by apply Hb | done | by apply Ha].
Qed.

Lemma first_longest_unique (order : list CompilerInfo) (cmd : string)
    (r1 r2 : CompilerInfo) :
  first_longest order cmd r1 → first_longest order cmd r2 → r1 = r2.
Proof.
  intros (b1 & a1 & -> & Hr1 & Hb1 & Ha1) (b2 & a2 & Heq & Hr2 & Hb2 & Ha2).
  apply app_eq_app in Heq as [l [[-> Hl] | [-> Hl]]].
  - destruct l as [|x l]; simpl in Hl; injection Hl as <- Hl; [done |].
    assert (CompilerInfo_len r2 < CompilerInfo_len r1)
      by (apply Hb1; [set_solver | done]).
    assert (CompilerInfo_len r1 ≤ CompilerInfo_len r2)
      by (apply Ha2; [rewrite Hl; set_solver | done]).
    lia.
  - destruct l as [|x l]; simpl in Hl; injection Hl as <- Hl; [done |].
    assert (CompilerInfo_len r1 < CompilerInfo_len r2)
      by (apply Hb2; [set_solver | done]).
    assert (CompilerInfo_len r2 ≤ CompilerInfo_len r1)
      by (apply Ha1; [rewrite Hl; set_solver | done]).
    lia.
Qed.

(** ** What [add] does to the family and to the instances *)

Lemma set_info_lookup (self : CompilerFamily) (r : CompilerRole)
    (info : CompilerInfo) (c : string) :
  _info_by_command (set_info self r info) !! c =
    if decide (command info = c) then Some info else _info_by_command self !! c.
Proof. unfold set_info; simpl. apply lookup_insert. Qed.

(** The effect of a call of [add], whatever its outcome: the instances
    [new] were created, each for a command that the family did not have,
    and nothing else changed. *)
Lemma add_effect (self : CompilerFamily) (instances : list CompilerInfo)
    (r : CompilerRole) (commands : list string)
    (self' : CompilerFamily) (instances' : list CompilerInfo) (out : result unit) :
  add self instances r commands = (self', instances', out) →
  name self' = name self ∧
  (∀ a, flags_of a self' = flags_of a self) ∧
  ∃ new,
    instances' = instances ++ new ∧
    NoDup new ∧
    (∀ i, i ∈ new →
       family i = name self ∧ command i ∈ commands ∧
       _info_by_command self !! command i = None ∧
       _info_by_command self' !! command i = Some i) ∧
    (∀ c i, _info_by_command self !! c = Some i →
            _info_by_command self' !! c = Some i) ∧
    (∀ c i, _info_by_command self' !! c = Some i →
            _info_by_command self !! c = Some i ∨ (i ∈ new ∧ command i = c)).
Proof.
  revert self instances.
  induction commands as [|c commands IH]; intros self instances; simpl.
  - intros [= <- <- <-]. split; [done |]. split; [done |].
    exists []. rewrite app_nil_r. split; [done |]. split; [constructor |].
    split; [intros ? ?%elem_of_nil; done |]. split; [done | by left].
  - destruct (_info_by_command self !! c) as [old|] eqn:Hc.
    + intros [= <- <- <-]. split; [done |]. split; [done |].
      exists []. rewrite app_nil_r. split; [done |]. split; [constructor |].
      split; [intros ? ?%elem_of_nil; done |]. split; [done | by left].
    + intros Hadd. set (info := CompilerInfo_init c self r) in *.
      apply IH in Hadd as (Hname & Hflags & new & -> & Hnodup & Hnew & Hold & Hinv).
      split; [done |]. split; [intros a; rewrite Hflags; by destruct a |].
      exists (info :: new). unfold track. rewrite <- app_assoc. split; [done |].
      assert (_info_by_command self' !! c = Some info) as Hinfo.
      { apply Hold. rewrite set_info_lookup. by rewrite decide_True. }
      split; [| split; [| split]].
      * constructor; [| done]. intros Hin. apply Hnew in Hin as (_ & _ & Hnone & _).
        rewrite set_info_lookup in Hnone. by rewrite decide_True in Hnone.
      * intros i [-> | Hi]%elem_of_cons.
        { split; [done |]. split; [left |]. done. }
        apply Hnew in Hi as (Hf & Hin & Hnone & Hsome).
        rewrite set_info_lookup in Hnone. case_decide; [done |].
        split; [done |]. split; [by right | done].
      * intros c' i Hi. apply Hold. rewrite set_info_lookup.
        case_decide as Heq; [| done]. simpl in Heq. congruence.
      * intros c' i Hi. apply Hinv in Hi as [Hi | [Hi <-]].
        -- rewrite set_info_lookup in Hi. case_decide as Heq; [| by left].
           injection Hi as <-. right. split; [left | done].
        -- right. split; [by right | done].
Qed.

(** A call that succeeds registers every command, in the order given. *)
Lemma add_ok (self : CompilerFamily) (instances : list CompilerInfo)
    (r : CompilerRole) (commands : list string) :
  NoDup commands →
  (∀ c, c ∈ commands → _info_by_command self !! c = None) →
  ∃ self',
    add self instances r commands = (self', instances ++
      ((λ c, CompilerInfo_init c self r) <$> commands), inr tt) ∧
    ∀ c, c ∈ commands →
         _info_by_command self' !! c = Some (CompilerInfo_init c self r).
Proof.
  revert self instances.
  induction commands as [|c commands IH]; intros self instances Hnd Hfresh; simpl.
  - exists self. rewrite app_nil_r. split; [done |]. intros ? ?%elem_of_nil. done.
  - rewrite (Hfresh c) by left. apply NoDup_cons in Hnd as [Hc Hnd].
    set (info := CompilerInfo_init c self r).
    destruct (IH (set_info self r info) (track instances info)) as (self' & Hadd & Hreg);
      [done | |].
    { intros c' Hc'. rewrite set_info_lookup. case_decide as Heq.
      - simpl in Heq. congruence.
      - apply Hfresh. by right. }
    exists self'. split.
    + rewrite Hadd. unfold track. rewrite <- app_assoc. done.
    + intros c' [-> | Hc']%elem_of_cons; [| by apply Hreg].
      apply add_effect in Hadd as (_ & _ & _ & _ & _ & _ & Hold & _).
      apply Hold. rewrite set_info_lookup. by rewrite decide_True.
Qed.

(** ** The constructor of a family *)

Lemma CompilerFamily_init_spec (heap : list (list string)) (n : string)
    (vf ipf lpf llf swf : flag_arg) (heap' : list (list string))
    (fam : CompilerFamily) :
  CompilerFamily_init heap n vf ipf lpf llf swf = Some (heap', fam) →
  name fam = n ∧ _info_by_command fam = ∅ ∧ _info_by_role fam = ∅ ∧
  (∀ a, flags_of a fam = length heap + default_flags a) ∧
  ∃ new, heap' = heap ++ new ∧ length new = 5.
Proof.
  unfold CompilerFamily_init, copy_list, alloc. intros Hinit.
  destruct (heap !! arg_loc VersionFlags vf) as [v1|]; [simpl in Hinit | done].
  destruct ((heap ++ [v1]) !! arg_loc IncludePathFlags ipf) as [v2|];
    [simpl in Hinit | done].
  destruct (((heap ++ [v1]) ++ [v2]) !! arg_loc LibraryPathFlags lpf) as [v3|];
    [simpl in Hinit | done].
  destruct ((((heap ++ [v1]) ++ [v2]) ++ [v3]) !! arg_loc LinkLibraryFlags llf)
    as [v4|]; [simpl in Hinit | done].
  destruct (((((heap ++ [v1]) ++ [v2]) ++ [v3]) ++ [v4])
              !! arg_loc ShowWrapperFlags swf) as [v5|]; [simpl in Hinit | done].
  injection Hinit as <- <-. simpl.
  split; [done |]. split; [done |]. split; [done |]. split.
  - intros []; simpl; rewrite ?length_app; simpl; lia.
  - exists [v1; v2; v3; v4; v5]. rewrite <- !app_assoc. done.
Qed.

(** ** Every statement keeps the state consistent *)

Lemma module_start_consistent : consistent module_start.
Proof.
  split; simpl; try done.
  - intros i ?%elem_of_nil. done.
  - constructor.
Qed.

Lemma CompilerRole_new_consistent (s : Registry) (k l : string) (r : bool) :
  consistent s → consistent (CompilerRole_new s k l r).1.
Proof.
  intros Hs. unfold CompilerRole_new.
  destruct (CompilerRole_instances s !! k); [done |].
  destruct Hs. by split.
Qed.

Lemma Registry_list_consistent (s : Registry) (items : list string) :
  consistent s → consistent (Registry_list s items).1.
Proof.
  intros []. split; simpl; try done.
  - rewrite length_app. lia.
  - intros k f a Hf. rewrite length_app. specialize (flags_live0 k f a Hf). lia.
Qed.

Lemma mutate_list_consistent (s : Registry) (l : loc) (items : list string) :
  consistent s → consistent (mutate_list s l items).
Proof.
  intros []. split; simpl; try done.
  - by rewrite length_insert.
  - intros k f a Hf. rewrite length_insert. eauto.
Qed.

Lemma CompilerFamily_new_consistent (s : Registry) (n : string)
    (vf ipf lpf llf swf : flag_arg) :
  consistent s → consistent (CompilerFamily_new s n vf ipf lpf llf swf).1.
Proof.
  intros Hs. unfold CompilerFamily_new.
  destruct (CompilerFamily_instances s !! n) eqn:Hn; [done |].
  destruct (CompilerFamily_init _ _ _ _ _ _ _) as [[heap fam]|] eqn:Hinit;
    [| done].
  apply CompilerFamily_init_spec in Hinit
    as (Hname & Hcmd & _ & Hflags & new & -> & Hlen).
  destruct Hs. split; simpl.
  - intros k f [[<- <-] | [_ Hf]]%lookup_insert_Some; eauto.
  - intros k f c i [[<- <-] | [_ Hf]]%lookup_insert_Some Hi; [| eauto].
    rewrite Hcmd in Hi. done.
  - intros i Hi. destruct (info_owner0 i Hi) as (f & Hf & Hc).
    exists f. split; [| done]. rewrite lookup_insert_ne; [done |]. congruence.
  - done.
  - rewrite length_app. lia.
  - intros k f a [[<- <-] | [_ Hf]]%lookup_insert_Some; rewrite length_app.
    + rewrite Hflags. destruct a; simpl; lia.
    + specialize (flags_live0 k f a Hf). lia.
  - intros k1 f1 a1 k2 f2 a2
      [[<- <-] | [Hk1 Hf1]]%lookup_insert_Some
      [[<- <-] | [Hk2 Hf2]]%lookup_insert_Some; rewrite ?Hflags.
    + intros Heq. split; [done |]. destruct a1, a2; simpl in Heq; done || lia.
    + specialize (flags_live0 k2 f2 a2 Hf2). lia.
    + specialize (flags_live0 k1 f1 a1 Hf1). lia.
    + eauto.
Qed.

Lemma Registry_add_consistent (s : Registry) (k : string) (r : CompilerRole)
    (commands : list string) :
  consistent s → consistent (Registry_add s k r commands).1.
Proof.
  intros Hs. unfold Registry_add.
  destruct (CompilerFamily_instances s !! k) as [self|] eqn:Hself; [| done].
  destruct (add self _ r commands) as [[self' instances'] out] eqn:Hadd.
  apply add_effect in Hadd
    as (Hname & Hflags & new & -> & Hnodup & Hnew & Hold & Hinv).
  destruct Hs. pose proof (family_key0 k self Hself) as Hk.
  split; simpl.
  - intros k' f [[<- <-] | [_ Hf]]%lookup_insert_Some; [congruence | eauto].
  - intros k' f c i [[<- <-] | [_ Hf]]%lookup_insert_Some Hi.
    + apply Hinv in Hi as [Hi | [Hi <-]].
      * destruct (command_key0 k self c i Hself Hi) as (? & ? & ?).
        split; [done |]. split; [done |]. apply elem_of_app. by left.
      * destruct (Hnew i Hi) as (? & _). split; [done |].
        split; [congruence |]. apply elem_of_app. by right.
    + destruct (command_key0 k' f c i Hf Hi) as (? & ? & ?).
      split; [done |]. split; [done |]. apply elem_of_app. by left.
  - intros i [Hi | Hi]%elem_of_app.
    + destruct (info_owner0 i Hi) as (f & Hf & Hc).
      destruct (decide (family i = k)) as [Heq | Hne].
      * exists self'. rewrite Heq, lookup_insert_eq. split; [done |].
        apply Hold. rewrite Heq in Hf. congruence.
      * exists f. by rewrite lookup_insert_ne.
    + destruct (Hnew i Hi) as (Hf & _ & _ & Hc). exists self'.
      rewrite Hf, Hk, lookup_insert_eq. done.
  - apply NoDup_app. split; [done |]. split; [| done].
    intros i Hi Hi'. destruct (Hnew i Hi') as (Hf & _ & Hnone & _).
    destruct (info_owner0 i Hi) as (f & Hfam & Hc).
    rewrite Hf, Hk in Hfam. congruence.
  - done.
  - intros k' f a [[<- <-] | [_ Hf]]%lookup_insert_Some; [| eauto].
    rewrite Hflags. eauto.
  - intros k1 f1 a1 k2 f2 a2
      [[<- <-] | [Hk1 Hf1]]%lookup_insert_Some
      [[<- <-] | [Hk2 Hf2]]%lookup_insert_Some; rewrite ?Hflags; eauto.
Qed.

Lemma step_consistent (s : Registry) (op : Op) :
  consistent s → consistent (step s op).1.
Proof.
  intros Hs. destruct op as [k l r | items | l items | n vf ipf lpf llf swf | k r cs];
    simpl.
  - by apply CompilerRole_new_consistent.
  - by apply Registry_list_consistent.
  - by apply mutate_list_consistent.
  - pose proof (CompilerFamily_new_consistent s n vf ipf lpf llf swf Hs) as Hc.
    destruct (CompilerFamily_new s n vf ipf lpf llf swf) as [s' [e | f]]; done.
  - by apply Registry_add_consistent.
Qed.

Lemma run_consistent (ops : list Op) (s : Registry) :
  consistent s → consistent (run ops s).
Proof.
  revert s. induction ops as [|op ops IH]; intros s Hs; [done |].
  simpl. apply IH. by apply step_consistent.
Qed.

(** No statement removes an instance of [CompilerInfo]. *)
Lemma step_instances (s : Registry) (op : Op) :
  CompilerInfo_instances s `prefix_of` CompilerInfo_instances (step s op).1.
Proof.
  destruct op as [k l r | items | l items | n vf ipf lpf llf swf | k r cs]; simpl.
  - unfold CompilerRole_new. by destruct (_ !! k).
  - done.
  - done.
  - unfold CompilerFamily_new. destruct (_ !! n); [done |].
    by destruct (CompilerFamily_init _ _ _ _ _ _ _) as [[? ?]|].
  - unfold Registry_add. destruct (_ !! k) as [self|]; [| done].
    destruct (add self _ r cs) as [[self' instances'] out] eqn:Hadd.
    apply add_effect in Hadd as (_ & _ & new & -> & _). simpl.
    by apply prefix_app_r.
Qed.

Lemma run_instances (ops : list Op) (s : Registry) :
  CompilerInfo_instances s `prefix_of` CompilerInfo_instances (run ops s).
Proof.
  revert s. induction ops as [|op ops IH]; intros s; [done |].
  simpl. etrans; [apply step_instances | apply IH].
Qed.

(** ** Iteration of the stores *)

Lemma run_app (ops more : list Op) (s : Registry) :
  run (ops ++ more) s = run more (run ops s).
Proof. unfold run. apply foldl_app. Qed.

(** The module body: the roles first, then the families. *)
Lemma loaded_split : loaded = run family_seed (run role_seed module_start).
Proof. unfold loaded, module_body. apply run_app. Qed.

Lemma reachable_consistent (s : Registry) : reachable s → consistent s.
Proof. intros [ops ->]. apply run_consistent, module_start_consistent. Qed.

(** No statement of the module raises. *)
Lemma module_body_succeeds :
  Forall (λ out, out = inr tt) (outcomes module_body module_start).
Proof. by_evaluation. Qed.

Lemma loaded_reachable : reachable loaded.
Proof. by exists module_body. Qed.

Lemma elem_of_CompilerInfo_all {St : Stores} (s : Registry) (i : CompilerInfo) :
  i ∈ CompilerInfo_all s ↔ i ∈ CompilerInfo_instances s.
Proof. unfold CompilerInfo_all. by rewrite set_iter_perm. Qed.

(** The values of a dictionary whose entry at [k] is [p]: [p], and the
    values at the other keys. *)
Lemma values_without {V : Type} (d : gmap string V) (k : string) (p : V) :
  d !! k = Some p →
  (map_to_list d).*2 ≡ₚ p :: (map_to_list (delete k d)).*2.
Proof.
  intros Hk. rewrite <- (insert_delete_id d k p Hk) at 1.
  rewrite map_to_list_insert by apply lookup_delete_eq. done.
Qed.

Lemma keyed_names (s : Registry) (l : list (string * CompilerFamily)) :
  consistent s →
  (∀ k f, (k, f) ∈ l → CompilerFamily_instances s !! k = Some f) →
  name <$> l.*2 = l.*1.
Proof.
  intros Hs. induction l as [|[k f] l IH]; intros Hl; [done |]. csimpl.
  rewrite IH by (intros; apply Hl; by right).
  f_equal. apply (family_key s Hs). apply Hl. left.
Qed.

(** [CompilerFamily.all] in a consistent state where the host's family
    has an instance. *)
Lemma CompilerFamily_all_spec {St : Stores} {H : Host} (s : Registry)
    (p : CompilerFamily) :
  consistent s →
  CompilerFamily_instances s !! preferred_compilers = Some p →
  ∃ rest,
    CompilerFamily_all s = inr (p :: rest) ∧
    p :: rest ≡ₚ (map_to_list (CompilerFamily_instances s)).*2 ∧
    (name <$> (p :: rest)) ≡ₚ (map_to_list (CompilerFamily_instances s)).*1 ∧
    (∀ f, f ∈ rest → name f ≠ name p).
Proof.
  intros Hs Hp. unfold CompilerFamily_all, preferred, dict_get. rewrite Hp.
  eexists. split; [done |].
  assert (p :: filter (λ instance, name instance ≠ name p)
                 (dict_itervalues (CompilerFamily_instances s))
          ≡ₚ (map_to_list (CompilerFamily_instances s)).*2) as Hperm.
  { rewrite dict_itervalues_perm, (values_without _ _ _ Hp).
    rewrite filter_cons_False by (intros Hne; by apply Hne).
    constructor. 
    assert (Forall (λ instance, name instance ≠ name p)
              (map_to_list (delete preferred_compilers
                 (CompilerFamily_instances s))).*2) as Hall.
    { apply Forall_fmap, Forall_forall. intros [k f] Hkf%elem_of_map_to_list.
      apply lookup_delete_Some in Hkf as [Hne Hf]. simpl.
      rewrite (family_key s Hs _ _ Hf), (family_key s Hs _ _ Hp). done. }
    induction Hall as [|f l Hf Hl IH]; [done |].
    rewrite filter_cons_True by done. by constructor. }
  split; [done |]. split.
  - rewrite Hperm. rewrite (keyed_names s); [done | done |].
    intros k f. apply elem_of_map_to_list.
  - intros f [Hf _]%list_elem_of_filter. done.
Qed.

Lemma step_roles (s : Registry) (op : Op) :
  makes_role op = false →
  CompilerRole_instances (step s op).1 = CompilerRole_instances s.
Proof.
  destruct op as [k l r | items | l items | n vf ipf lpf llf swf | k r cs];
    simpl; try done.
  - intros _. unfold CompilerFamily_new. destruct (_ !! n); [done |].
    by destruct (CompilerFamily_init _ _ _ _ _ _ _) as [[? ?]|].
  - intros _. unfold Registry_add. destruct (_ !! k) as [self|]; [| done].
    by destruct (add self _ r cs) as [[? ?] ?].
Qed.

Lemma run_roles (ops : list Op) (s : Registry) :
  forallb (λ op, negb (makes_role op)) ops = true →
  CompilerRole_instances (run ops s) = CompilerRole_instances s.
Proof.
  revert s. induction ops as [|op ops IH]; intros s; simpl; [done |].
  intros [Hop Hops]%andb_true_iff. rewrite IH by done.
  apply step_roles. by destruct (makes_role op).
Qed.

(** ** Lookup of a command *)

(** C1 (as amended).  In a state that the module can reach, let the
    command [c] be registered in the family with key [k], with the
    instance [i], and let [p] be an input whose final path segment is [c].
    Then [find] returns an instance [j] created for [c]: its command is
    [c], the family that it names holds it under [c], and it is the first
    instance with command [c] that the iteration of the instances meets,
    whatever other commands occur in [p].  When no other family has
    registered [c], [j] is [i] itself. *)
Theorem find_exact_match {St : Stores} (s : Registry) (k : string)
    (f : CompilerFamily) (c : string) (i : CompilerInfo) (p : string) :
  reachable s →
  CompilerFamily_instances s !! k = Some f →
  _info_by_command f !! c = Some i →
  basename p = c →
  ∃ j g n,
    CompilerInfo_find s p = inr j ∧
    command j = c ∧
    CompilerFamily_instances s !! family j = Some g ∧
    _info_by_command g !! c = Some j ∧
    CompilerInfo_all s !! n = Some j ∧
    (∀ m y, CompilerInfo_all s !! m = Some y → m < n → command y ≠ c) ∧
    ((∀ k' g', k' ≠ k → CompilerFamily_instances s !! k' = Some g' →
               _info_by_command g' !! c = None) → j = i).
Proof.
  intros Hs%reachable_consistent Hf Hi <-.
  destruct (command_key s Hs k f _ i Hf Hi) as (Hc & Hfam & Hin).
  destruct (find_exact (CompilerInfo_all s) p i) as (n & j & Hn & Hj & Hfirst & Hfind);
    [by apply elem_of_CompilerInfo_all | done |].
  assert (j ∈ CompilerInfo_instances s) as Hjin.
  { apply elem_of_CompilerInfo_all. by eapply list_elem_of_lookup_2. }
  destruct (info_owner s Hs j Hjin) as (g & Hg & Hgj). rewrite Hj in Hgj.
  exists j, g, n. repeat (split; [done |]).
  intros Honly. destruct (decide (family j = k)) as [Heq | Hne].
  - rewrite Heq in Hg. congruence.
  - rewrite (Honly _ _ Hne Hg) in Hgj. done.
Qed.

Lemma find_exact_match_witness :
  ∃ j g n,
    CompilerInfo_find (St := insertion_order) loaded "/usr/bin/gcc" = inr j ∧
    command j = "gcc" ∧
    CompilerFamily_instances loaded !! family j = Some g ∧
    _info_by_command g !! "gcc" = Some j ∧
    CompilerInfo_all (St := insertion_order) loaded !! n = Some j ∧
    (∀ m y, CompilerInfo_all (St := insertion_order) loaded !! m = Some y →
            m < n → command y ≠ "gcc") ∧
    ((∀ k' g', k' ≠ "GNU" → CompilerFamily_instances loaded !! k' = Some g' →
               _info_by_command g' !! "gcc" = None) →
     j = CompilerInfo_init "gcc" GNU_COMPILERS CC_ROLE).
Proof.
  apply (find_exact_match (St := insertion_order) loaded "GNU" GNU_COMPILERS
           "gcc" (CompilerInfo_init "gcc" GNU_COMPILERS CC_ROLE) "/usr/bin/gcc").
  - exists module_body. reflexivity.
  - vm_compute. reflexivity.
  - vm_compute. reflexivity.
  - vm_compute. reflexivity.
Defined.

(** C1, as stated, fails: [cc] is registered in the families System and
    Cray, with two instances, and [find] of [cc] returns one instance: the
    one of System when the instances are iterated in the order of their
    creation, and never both. *)
Lemma find_exact_not_per_family :
  CompilerFamily_instances loaded !! "System" = Some SYSTEM_COMPILERS ∧
  CompilerFamily_instances loaded !! "Cray" = Some CRAY_COMPILERS ∧
  _info_by_command SYSTEM_COMPILERS !! "cc"
    = Some (CompilerInfo_init "cc" SYSTEM_COMPILERS CC_ROLE) ∧
  _info_by_command CRAY_COMPILERS !! "cc"
    = Some (CompilerInfo_init "cc" CRAY_COMPILERS CC_ROLE) ∧
  basename "cc" = "cc" ∧
  CompilerInfo_find (St := insertion_order) loaded "cc"
    = inr (CompilerInfo_init "cc" SYSTEM_COMPILERS CC_ROLE) ∧
  CompilerInfo_find (St := insertion_order) loaded "cc"
    ≠ inr (CompilerInfo_init "cc" CRAY_COMPILERS CC_ROLE) ∧
  ∀ St : Stores,
    ¬ (CompilerInfo_find loaded "cc"
         = inr (CompilerInfo_init "cc" SYSTEM_COMPILERS CC_ROLE) ∧
       CompilerInfo_find loaded "cc"
         = inr (CompilerInfo_init "cc" CRAY_COMPILERS CC_ROLE)).
Proof.
  repeat (split; [vm_compute; reflexivity |]).
  split; [vm_compute; discriminate |].
  intros St [H1 H2]. rewrite H1 in H2. vm_compute in H2. discriminate.
Qed.

Lemma no_exact_all {St : Stores} (s : Registry) (p : string) :
  (∀ i, i ∈ CompilerInfo_instances s → command i ≠ basename p) →
  ∀ i, i ∈ CompilerInfo_all s → command i ≠ basename p.
Proof. intros Hno i Hi%elem_of_CompilerInfo_all. by apply Hno. Qed.

Lemma candidate_all {St : Stores} (s : Registry) (cmd : string) :
  (∃ i, i ∈ CompilerInfo_instances s ∧ substring_of (command i) cmd) →
  ∃ i, i ∈ CompilerInfo_all s ∧ substring_of (command i) cmd.
Proof. intros (i & Hi & Hs). exists i. by rewrite elem_of_CompilerInfo_all. Qed.

(** C2.  When no instance has the final segment of the input as its
    command and some instance has a command that occurs in it, [find]
    returns such an instance, and no such instance has a longer command.
    Once the module is imported, [find("gcc-4.7-x86_64")] is the instance
    for [gcc], of family GNU and role CC, in every order of iteration. *)
Theorem find_longest_substring {St : Stores} :
  (∀ (s : Registry) (p : string),
     (∀ i, i ∈ CompilerInfo_instances s → command i ≠ basename p) →
     (∃ i, i ∈ CompilerInfo_instances s ∧
           substring_of (command i) (basename p)) →
     ∃ r, CompilerInfo_find s p = inr r ∧
          r ∈ CompilerInfo_instances s ∧
          substring_of (command r) (basename p) ∧
          ∀ i, i ∈ CompilerInfo_instances s →
               substring_of (command i) (basename p) →
               CompilerInfo_len i ≤ CompilerInfo_len r) ∧
  CompilerInfo_find loaded "gcc-4.7-x86_64"
    = inr (mkInfo "gcc" "GNU" CC_ROLE "GNU C compiler") ∧
  _info_by_command GNU_COMPILERS !! "gcc"
    = Some (mkInfo "gcc" "GNU" CC_ROLE "GNU C compiler").
Proof.
  assert (∀ (s : Registry) (p : string),
     (∀ i, i ∈ CompilerInfo_instances s → command i ≠ basename p) →
     (∃ i, i ∈ CompilerInfo_instances s ∧
           substring_of (command i) (basename p)) →
     ∃ r, CompilerInfo_find s p = inr r ∧
          r ∈ CompilerInfo_instances s ∧
          substring_of (command r) (basename p) ∧
          ∀ i, i ∈ CompilerInfo_instances s →
               substring_of (command i) (basename p) →
               CompilerInfo_len i ≤ CompilerInfo_len r) as Hgen.
  { intros s p Hno Hcand.
    destruct (find_approximate (CompilerInfo_all s) p) as (r & Hfind & Hfirst);
      [by apply no_exact_all | by apply candidate_all |].
    apply first_longest_longest in Hfirst as (Hr & Hsub & Hmax).
    exists r. split; [done |]. split; [by apply elem_of_CompilerInfo_all |].
    split; [done |]. intros i Hi. apply Hmax. by apply elem_of_CompilerInfo_all. }
  split; [exact Hgen |]. split; [| vm_compute; reflexivity].
  set (gcc := mkInfo "gcc" "GNU" CC_ROLE "GNU C compiler").
  assert (gcc ∈ CompilerInfo_instances loaded) as Hgcc by by_evaluation.
  assert (substring_of (command gcc) (basename "gcc-4.7-x86_64")) as Hocc
    by (apply str_in_spec; vm_compute; reflexivity).
  destruct (Hgen loaded "gcc-4.7-x86_64") as (r & -> & Hr & Hsub & Hmax).
  - apply Forall_forall. by_evaluation.
  - by exists gcc.
  - f_equal.
    assert (3 ≤ CompilerInfo_len r) as Hlen by by apply (Hmax gcc).
    apply str_in_spec in Hsub.
    assert (Forall (λ x, str_in (command x) (basename "gcc-4.7-x86_64") = true →
                         3 ≤ CompilerInfo_len x → x = gcc)
              (CompilerInfo_instances loaded)) as Hall by by_evaluation.
    rewrite Forall_forall in Hall. by apply Hall.
Qed.

Lemma find_longest_substring_witness :
  ∃ r, CompilerInfo_find (St := insertion_order) loaded "/opt/mpi/bin/mpicc" = inr r ∧
       r ∈ CompilerInfo_instances loaded ∧
       substring_of (command r) (basename "/opt/mpi/bin/mpicc") ∧
       ∀ i, i ∈ CompilerInfo_instances loaded →
            substring_of (command i) (basename "/opt/mpi/bin/mpicc") →
            CompilerInfo_len i ≤ CompilerInfo_len r.
Proof.
  apply (proj1 (find_longest_substring (St := insertion_order))).
  - apply Forall_forall. by_evaluation.
  - exists (mkInfo "cc" "System" CC_ROLE "System C compiler").
    split; [by_evaluation |].
    apply str_in_spec. vm_compute. reflexivity.
Defined.

(** C3.  [find] raises exactly when no instance has the final segment of
    the input as its command and no instance has a command that occurs in
    it; the exception is then [KeyError], the not-found error.  Once the
    module is imported, [find("does-not-exist")] raises it. *)
Theorem find_not_found {St : Stores} :
  (∀ (s : Registry) (p : string),
     (∃ e, CompilerInfo_find s p = inl e) ↔
     (∀ i, i ∈ CompilerInfo_instances s → command i ≠ basename p) ∧
     (∀ i, i ∈ CompilerInfo_instances s →
           ¬ substring_of (command i) (basename p))) ∧
  (∀ (s : Registry) (p : string) (e : exn),
     CompilerInfo_find s p = inl e → e = KeyError) ∧
  CompilerInfo_find loaded "does-not-exist" = inl KeyError.
Proof.
  split; [| split].
  - intros s p. split.
    + intros [e [-> Hnone]%find_raises].
      assert (∀ i, i ∈ CompilerInfo_instances s →
                   ¬ substring_of (command i) (basename p)) as Hnone'.
      { intros i Hi. apply Hnone. by apply elem_of_CompilerInfo_all. }
      split; [| done].
      intros i Hi Hc. apply (Hnone' i Hi). rewrite Hc. apply substring_of_refl.
    + intros [_ Hnone]. exists KeyError. apply find_raises. split; [done |].
      intros i Hi%elem_of_CompilerInfo_all. by apply Hnone.
  - intros s p e [-> _]%find_raises. done.
  - apply find_raises. split; [done |].
    assert (Forall (λ i, str_in (command i) (basename "does-not-exist") ≠ true)
              (CompilerInfo_instances loaded)) as Hall by by_evaluation.
    rewrite Forall_forall in Hall.
    intros i Hi%elem_of_CompilerInfo_all Hsub%str_in_spec. by apply (Hall i).
Qed.

(** C10 (as amended).  When [find] falls back on the commands that occur
    in the input, it returns the first instance, in the order in which the
    instances are iterated, among those with the longest command: the
    instances iterated before it have shorter commands, and those iterated
    after it have commands that are not longer.  One instance only fits
    this description, so for a given state and a given order of iteration
    the result is a function of the input. *)
Theorem find_tie_first_in_iteration {St : Stores} (s : Registry) (p : string) :
  (∀ i, i ∈ CompilerInfo_instances s → command i ≠ basename p) →
  (∃ i, i ∈ CompilerInfo_instances s ∧ substring_of (command i) (basename p)) →
  ∃ r, CompilerInfo_find s p = inr r ∧
       first_longest (CompilerInfo_all s) (basename p) r ∧
       ∀ r', first_longest (CompilerInfo_all s) (basename p) r' → r' = r.
Proof.
  intros Hno Hcand.
  destruct (find_approximate (CompilerInfo_all s) p) as (r & Hfind & Hfirst);
    [by apply no_exact_all | by apply candidate_all |].
  exists r. split; [done |]. split; [done |].
  intros r' Hr'. by eapply first_longest_unique.
Qed.

Lemma find_tie_first_in_iteration_witness :
  ∃ r, CompilerInfo_find (St := newest_first) loaded "mpif90" = inr r ∧
       first_longest (CompilerInfo_all (St := newest_first) loaded)
         (basename "mpif90") r ∧
       ∀ r', first_longest (CompilerInfo_all (St := newest_first) loaded)
               (basename "mpif90") r' → r' = r.
Proof.
  apply (find_tie_first_in_iteration (St := newest_first) loaded "mpif90").
  - apply Forall_forall. by_evaluation.
  - exists (mkInfo "f90" "System" FC_ROLE "System Fortran compiler").
    split; [by_evaluation |].
    apply str_in_spec. vm_compute. reflexivity.
Defined.

(** C10, as stated, fails: [f90] occurs in [mpif90] and is registered by
    System and, later, by Cray.  The instance of System is the one
    registered first among the longest candidates, and a store that
    iterates its instances from the newest to the oldest makes [find]
    return the instance of Cray. *)
Lemma find_tie_not_registration_order :
  (∀ i, i ∈ CompilerInfo_instances loaded → command i ≠ basename "mpif90") ∧
  first_longest (CompilerInfo_instances loaded) (basename "mpif90")
    (mkInfo "f90" "System" FC_ROLE "System Fortran compiler") ∧
  CompilerInfo_find (St := newest_first) loaded "mpif90"
    = inr (mkInfo "f90" "Cray" FC_ROLE "Cray Fortran compiler") ∧
  ¬ first_longest (CompilerInfo_instances loaded) (basename "mpif90")
      (mkInfo "f90" "Cray" FC_ROLE "Cray Fortran compiler").
Proof.
  assert (∀ i, i ∈ CompilerInfo_instances loaded →
               command i ≠ basename "mpif90") as Hno
    by (apply Forall_forall; by_evaluation).
  assert (first_longest (CompilerInfo_instances loaded) (basename "mpif90")
            (mkInfo "f90" "System" FC_ROLE "System Fortran compiler")) as Hsys.
  { destruct (find_approximate (CompilerInfo_instances loaded) "mpif90")
      as (r & Hfind & Hfirst); [done | |].
    - exists (mkInfo "f90" "System" FC_ROLE "System Fortran compiler").
      split; [by_evaluation |]. apply str_in_spec. vm_compute. reflexivity.
    - vm_compute in Hfind. injection Hfind as <-. exact Hfirst. }
  split; [done |]. split; [done |]. split; [vm_compute; reflexivity |].
  intros Hcray. pose proof (first_longest_unique _ _ _ _ Hsys Hcray) as Heq.
  discriminate Heq.
Qed.

(** ** Registration *)

(** C4 (as amended).  A call of [add] with a command that the family
    already has fails with the error of a duplicate registration.  The
    commands [before] the first duplicate, which are new to the family and
    differ from one another, are registered as by a call of their own; the
    entries that the family had are kept.  When the first command of the
    call is already registered, as in a repeated call, the family and the
    instances are left exactly as they were. *)
Theorem add_duplicate_prefix (self : CompilerFamily)
    (instances : list CompilerInfo) (r : CompilerRole) (commands : list string) :
  (∃ c, c ∈ commands ∧ is_Some (_info_by_command self !! c)) →
  ∃ before c after self' instances',
    commands = before ++ c :: after ∧
    NoDup before ∧
    (∀ x, x ∈ before → _info_by_command self !! x = None) ∧
    (is_Some (_info_by_command self !! c) ∨ c ∈ before) ∧
    add self instances r before = (self', instances', inr tt) ∧
    add self instances r commands
      = (self', instances', inl (already_member c self)) ∧
    (∀ c' i, _info_by_command self !! c' = Some i →
             _info_by_command self' !! c' = Some i) ∧
    (∀ c0, head commands = Some c0 → is_Some (_info_by_command self !! c0) →
           self' = self ∧ instances' = instances).
Proof.
  revert self instances.
  induction commands as [|c0 cs IH]; intros self instances (c & Hc & Hreg).
  { by apply elem_of_nil in Hc. }
  destruct (_info_by_command self !! c0) as [old|] eqn:Hc0.
  - exists [], c0, cs, self, instances. simpl. rewrite Hc0.
    split; [done |]. split; [constructor |].
    split; [intros ? ?%elem_of_nil; done |]. split; [left; eauto |].
    repeat (split; [done |]). done.
  - set (info := CompilerInfo_init c0 self r).
    assert (∃ c, c ∈ cs ∧
              is_Some (_info_by_command (set_info self r info) !! c)) as Hcs.
    { exists c. apply elem_of_cons in Hc as [-> | Hc].
      - rewrite Hc0 in Hreg. by destruct Hreg.
      - split; [done |]. rewrite set_info_lookup. by case_decide. }
    destruct (IH (set_info self r info) (track instances info) Hcs)
      as (before & c' & after & self' & instances' & Hsplit & Hnd & Hfresh
          & Hdup & Hbefore & Hall & Hkeep & _).
    clear IH Hcs c Hc Hreg. subst cs.
    assert (∀ x, x ∈ before → x ≠ c0 ∧ _info_by_command self !! x = None)
      as Hfresh'.
    { intros x Hx. apply Hfresh in Hx. rewrite set_info_lookup in Hx.
      case_decide as Heq; [done |]. simpl in Heq. split; [congruence | done]. }
    exists (c0 :: before), c', after, self', instances'.
    split; [done |]. split.
    { constructor; [| done]. intros Hin. by destruct (Hfresh' c0 Hin). }
    split.
    { intros x [-> | Hx]%elem_of_cons; [done |]. by apply Hfresh'. }
    split.
    { destruct Hdup as [Hdup | Hdup]; [| right; by right].
      rewrite set_info_lookup in Hdup. case_decide as Heq; [| by left].
      simpl in Heq. rewrite <- Heq. right. left. }
    split; [simpl; by rewrite Hc0 |].
    split; [simpl; by rewrite Hc0 |].
    split.
    { intros c1 i Hi. apply Hkeep. rewrite set_info_lookup.
      case_decide as Heq; [| done]. simpl in Heq. congruence. }
    intros c1 [= <-] Hsome. rewrite Hc0 in Hsome. by destruct Hsome.
Qed.

Lemma add_duplicate_prefix_witness :
  ∃ before c after self' instances',
    ["cc"] = before ++ c :: after ∧
    NoDup before ∧
    (∀ x, x ∈ before → _info_by_command SYSTEM_COMPILERS !! x = None) ∧
    (is_Some (_info_by_command SYSTEM_COMPILERS !! c) ∨ c ∈ before) ∧
    add SYSTEM_COMPILERS (CompilerInfo_instances loaded) CC_ROLE before
      = (self', instances', inr tt) ∧
    add SYSTEM_COMPILERS (CompilerInfo_instances loaded) CC_ROLE ["cc"]
      = (self', instances', inl (already_member c SYSTEM_COMPILERS)) ∧
    (∀ c' i, _info_by_command SYSTEM_COMPILERS !! c' = Some i →
             _info_by_command self' !! c' = Some i) ∧
    (∀ c0, head ["cc"] = Some c0 →
           is_Some (_info_by_command SYSTEM_COMPILERS !! c0) →
           self' = SYSTEM_COMPILERS ∧ instances' = CompilerInfo_instances loaded).
Proof.
  apply (add_duplicate_prefix SYSTEM_COMPILERS (CompilerInfo_instances loaded)
           CC_ROLE ["cc"]).
  exists "cc". split; [left |]. vm_compute. eexists. reflexivity.
Defined.

(** C4, as stated, fails: [add(CC_ROLE, 'clang', 'cc')] on the System
    family raises for [cc], after it has registered [clang] in the command
    dictionary, in the role dictionary and among the instances. *)
Lemma add_duplicate_not_atomic :
  "cc" ∈ ["clang"; "cc"] ∧
  is_Some (_info_by_command SYSTEM_COMPILERS !! "cc") ∧
  (add SYSTEM_COMPILERS (CompilerInfo_instances loaded) CC_ROLE ["clang"; "cc"]).2
    = inl (already_member "cc" SYSTEM_COMPILERS) ∧
  _info_by_command SYSTEM_COMPILERS !! "clang" = None ∧
  _info_by_command
      (add SYSTEM_COMPILERS (CompilerInfo_instances loaded) CC_ROLE
         ["clang"; "cc"]).1.1 !! "clang"
    = Some (CompilerInfo_init "clang" SYSTEM_COMPILERS CC_ROLE) ∧
  _info_by_role SYSTEM_COMPILERS !! "CC"
    = Some [CompilerInfo_init "cc" SYSTEM_COMPILERS CC_ROLE] ∧
  _info_by_role
      (add SYSTEM_COMPILERS (CompilerInfo_instances loaded) CC_ROLE
         ["clang"; "cc"]).1.1 !! "CC"
    = Some [CompilerInfo_init "cc" SYSTEM_COMPILERS CC_ROLE;
            CompilerInfo_init "clang" SYSTEM_COMPILERS CC_ROLE] ∧
  (add SYSTEM_COMPILERS (CompilerInfo_instances loaded) CC_ROLE
     ["clang"; "cc"]).1.2
    = CompilerInfo_instances loaded
        ++ [CompilerInfo_init "clang" SYSTEM_COMPILERS CC_ROLE] ∧
  (add SYSTEM_COMPILERS (CompilerInfo_instances loaded) CC_ROLE
     ["clang"; "cc"]).1.1 ≠ SYSTEM_COMPILERS.
Proof.
  split; [by_evaluation |]. split; [vm_compute; eexists; reflexivity |].
  repeat (split; [vm_compute; reflexivity |]).
  intros Heq.
  assert (_info_by_command
            (add SYSTEM_COMPILERS (CompilerInfo_instances loaded) CC_ROLE
               ["clang"; "cc"]).1.1 !! "clang"
          = _info_by_command SYSTEM_COMPILERS !! "clang") as Hl
    by (by rewrite Heq).
  vm_compute in Hl. discriminate Hl.
Qed.

(** C5.  In every state that constructor calls and [add] calls reach,
    failed calls included, every instance that a family holds under a
    command is met by a scan of the index for that command, and the
    instances that the index iterates are the entries of the command
    dictionaries of the families: every instance is held by the family
    that it names, under its command.  No instance is iterated twice, and
    an instance that is in the index stays in it whatever statements
    follow. *)
Theorem global_index_invariant {St : Stores} (s : Registry) :
  reachable s →
  (∀ k f c i, CompilerFamily_instances s !! k = Some f →
              _info_by_command f !! c = Some i →
              command i = c ∧ family i = k ∧
              i ∈ filter (λ j, command j = c) (CompilerInfo_all s)) ∧
  (∀ i, i ∈ CompilerInfo_all s ↔
        ∃ k f, CompilerFamily_instances s !! k = Some f ∧
               _info_by_command f !! command i = Some i) ∧
  NoDup (CompilerInfo_all s) ∧
  (∀ ops i, i ∈ CompilerInfo_all s → i ∈ CompilerInfo_all (run ops s)).
Proof.
  intros Hs%reachable_consistent. split; [| split; [| split]].
  - intros k f c i Hf Hc.
    destruct (command_key s Hs k f c i Hf Hc) as (? & ? & ?).
    split; [done |]. split; [done |]. apply list_elem_of_filter.
    by rewrite elem_of_CompilerInfo_all.
  - intros i. rewrite elem_of_CompilerInfo_all. split.
    + intros Hi. destruct (info_owner s Hs i Hi) as (f & Hf & Hc). eauto.
    + intros (k & f & Hf & Hc).
      by destruct (command_key s Hs k f _ i Hf Hc) as (_ & _ & ?).
  - unfold CompilerInfo_all. rewrite set_iter_perm. apply (info_once s Hs).
  - intros ops i. rewrite !elem_of_CompilerInfo_all.
    destruct (run_instances ops s) as [new ->]. intros Hi.
    apply elem_of_app. by left.
Qed.

Lemma global_index_invariant_witness :
  (∀ k f c i, CompilerFamily_instances loaded !! k = Some f →
              _info_by_command f !! c = Some i →
              command i = c ∧ family i = k ∧
              i ∈ filter (λ j, command j = c)
                    (CompilerInfo_all (St := insertion_order) loaded)) ∧
  (∀ i, i ∈ CompilerInfo_all (St := insertion_order) loaded ↔
        ∃ k f, CompilerFamily_instances loaded !! k = Some f ∧
               _info_by_command f !! command i = Some i) ∧
  NoDup (CompilerInfo_all (St := insertion_order) loaded) ∧
  (∀ ops i, i ∈ CompilerInfo_all (St := insertion_order) loaded →
            i ∈ CompilerInfo_all (St := insertion_order) (run ops loaded)).
Proof.
  apply (global_index_invariant (St := insertion_order) loaded).
  exists module_body. reflexivity.
Defined.

(** C6.  In every reachable state, two families hold different list
    objects in their flag attributes, whatever arguments they were
    constructed with: a mutation of a flag list of one family sets that
    list, and leaves every flag list of the other family, the family
    objects and the five default lists as they were. *)
Theorem flag_lists_independent (s : Registry) (k1 k2 : string)
    (f1 f2 : CompilerFamily) (a1 a2 : flag_attr) (items : list string) :
  reachable s →
  CompilerFamily_instances s !! k1 = Some f1 →
  CompilerFamily_instances s !! k2 = Some f2 →
  k1 ≠ k2 →
  flags_of a1 f1 ≠ flags_of a2 f2 ∧
  lists (mutate_list s (flags_of a1 f1) items) !! flags_of a1 f1 = Some items ∧
  lists (mutate_list s (flags_of a1 f1) items) !! flags_of a2 f2
    = lists s !! flags_of a2 f2 ∧
  CompilerFamily_instances (mutate_list s (flags_of a1 f1) items) !! k2 = Some f2 ∧
  (∀ a, lists (mutate_list s (flags_of a1 f1) items) !! default_flags a
        = lists s !! default_flags a).
Proof.
  intros Hs%reachable_consistent Hf1 Hf2 Hne.
  assert (flags_of a1 f1 ≠ flags_of a2 f2) as Hloc.
  { intros Heq. by destruct (flags_apart s Hs _ _ _ _ _ _ Hf1 Hf2 Heq). }
  pose proof (flags_live s Hs k1 f1 a1 Hf1) as Hlive.
  split; [done |]. simpl. split; [| split; [| split]].
  - apply list_lookup_insert_eq. lia.
  - by apply list_lookup_insert_ne.
  - done.
  - intros a. apply list_lookup_insert_ne. destruct a; simpl; lia.
Qed.

Lemma flag_lists_independent_witness :
  flags_of VersionFlags SYSTEM_COMPILERS ≠ flags_of VersionFlags GNU_COMPILERS ∧
  lists (mutate_list loaded (flags_of VersionFlags SYSTEM_COMPILERS) ["-V"])
    !! flags_of VersionFlags SYSTEM_COMPILERS = Some ["-V"] ∧
  lists (mutate_list loaded (flags_of VersionFlags SYSTEM_COMPILERS) ["-V"])
    !! flags_of VersionFlags GNU_COMPILERS
    = lists loaded !! flags_of VersionFlags GNU_COMPILERS ∧
  CompilerFamily_instances
    (mutate_list loaded (flags_of VersionFlags SYSTEM_COMPILERS) ["-V"]) !! "GNU"
    = Some GNU_COMPILERS ∧
  (∀ a, lists (mutate_list loaded (flags_of VersionFlags SYSTEM_COMPILERS) ["-V"])
          !! default_flags a
        = lists loaded !! default_flags a).
Proof.
  apply (flag_lists_independent loaded "System" "GNU" SYSTEM_COMPILERS
           GNU_COMPILERS VersionFlags VersionFlags ["-V"]).
  - exists module_body. reflexivity.
  - vm_compute. reflexivity.
  - vm_compute. reflexivity.
  - discriminate.
Defined.

(** ** Iteration of the families and of the roles *)

(** [l] without the occurrences of [x]. *)
Lemma Permutation_filter_out {A : Type} `{!EqDecision A} (l : list A) (x : A) :
  NoDup l → x ∈ l → l ≡ₚ x :: filter (λ y, y ≠ x) l.
Proof.
  induction l as [|y l IH]; intros Hnd Hx; [by apply elem_of_nil in Hx |].
  apply NoDup_cons in Hnd as [Hy Hnd].
  destruct (decide (y = x)) as [-> | Hne].
  - rewrite filter_cons_False by (intros Hxx; by apply Hxx).
    constructor. clear IH Hx Hnd.
    induction l as [|z l IH]; [done |].
    apply not_elem_of_cons in Hy as [Hz Hy].
    rewrite filter_cons_True by done. constructor. by apply IH.
  - apply elem_of_cons in Hx as [-> | Hx]; [done |].
    rewrite filter_cons_True by done.
    rewrite (IH Hnd Hx) at 1. apply perm_swap.
Qed.

(** Two iterations of [CompilerFamily.all] in a consistent state whose
    families have the keys [names]. *)
Lemma CompilerFamily_all_twice (St1 St2 : Stores) {H : Host} (s : Registry)
    (names : list string) :
  consistent s →
  (map_to_list (CompilerFamily_instances s)).*1 ≡ₚ names →
  preferred_compilers ∈ names →
  ∃ p rest1 rest2,
    CompilerFamily_instances s !! preferred_compilers = Some p ∧
    name p = preferred_compilers ∧
    CompilerFamily_all (St := St1) s = inr (p :: rest1) ∧
    CompilerFamily_all (St := St2) s = inr (p :: rest2) ∧
    (name <$> (p :: rest1)) ≡ₚ names ∧
    (name <$> (p :: rest2)) ≡ₚ names ∧
    (name <$> rest1) ≡ₚ filter (λ n, n ≠ preferred_compilers) names ∧
    (∀ f, f ∈ p :: rest1 → CompilerFamily_instances s !! name f = Some f).
Proof.
  intros Hs Hkeys Hpref.
  assert (NoDup names) as Hnd
    by (rewrite <- Hkeys; apply NoDup_fst_map_to_list).
  assert (is_Some (CompilerFamily_instances s !! preferred_compilers)) as [p Hp].
  { rewrite <- Hkeys in Hpref.
    apply list_elem_of_fmap in Hpref as ([k f] & -> & Hkf).
    apply elem_of_map_to_list in Hkf. by exists f. }
  destruct (CompilerFamily_all_spec (St := St1) s p Hs Hp)
    as (rest1 & Hall1 & Hvals1 & Hnames1 & Hrest1).
  destruct (CompilerFamily_all_spec (St := St2) s p Hs Hp)
    as (rest2 & Hall2 & _ & Hnames2 & _).
  pose proof (family_key s Hs _ _ Hp) as Hname.
  exists p, rest1, rest2. rewrite Hkeys in Hnames1, Hnames2.
  repeat (split; [assumption |]). split.
  - rewrite fmap_cons, Hname in Hnames1.
    rewrite (Permutation_filter_out names preferred_compilers Hnd Hpref)
      in Hnames1 at 1.
    by apply Permutation_cons_inv in Hnames1.
  - intros f Hf. rewrite Hvals1 in Hf.
    apply list_elem_of_fmap in Hf as ([k g] & -> & Hkg%elem_of_map_to_list).
    change (CompilerFamily_instances s !! name g = Some g).
    by rewrite (family_key s Hs _ _ Hkg).
Qed.

(** C7.  Once the module is imported, with the host's preferred family
    one of the six families of the seed data, an iteration of
    [CompilerFamily.all] yields that family first and then the other five,
    each once, whatever order the store iterates in; each yielded object
    is the registered instance of its name.  A second iteration, even one
    in which the store iterates in another order, yields the same family
    first. *)
Theorem all_families_preferred_first (St1 St2 : Stores) {H : Host} :
  preferred_compilers ∈ family_names_seed →
  ∃ p rest1 rest2,
    CompilerFamily_instances loaded !! preferred_compilers = Some p ∧
    name p = preferred_compilers ∧
    CompilerFamily_all (St := St1) loaded = inr (p :: rest1) ∧
    CompilerFamily_all (St := St2) loaded = inr (p :: rest2) ∧
    (name <$> (p :: rest1)) ≡ₚ family_names_seed ∧
    (name <$> (p :: rest2)) ≡ₚ family_names_seed ∧
    (name <$> rest1)
      ≡ₚ filter (λ n, n ≠ preferred_compilers) family_names_seed ∧
    (∀ f, f ∈ p :: rest1 → CompilerFamily_instances loaded !! name f = Some f).
Proof.
  intros Hpref.
  apply (CompilerFamily_all_twice St1 St2 loaded family_names_seed);
    [apply reachable_consistent, loaded_reachable | by_evaluation | exact Hpref].
Qed.

Lemma all_families_preferred_first_witness :
  ∃ p rest1 rest2,
    CompilerFamily_instances loaded !! "GNU" = Some p ∧
    name p = "GNU" ∧
    CompilerFamily_all (St := insertion_order)
      (H := {| preferred_compilers := "GNU" |}) loaded = inr (p :: rest1) ∧
    CompilerFamily_all (St := newest_first)
      (H := {| preferred_compilers := "GNU" |}) loaded = inr (p :: rest2) ∧
    (name <$> (p :: rest1)) ≡ₚ family_names_seed ∧
    (name <$> (p :: rest2)) ≡ₚ family_names_seed ∧
    (name <$> rest1) ≡ₚ filter (λ n, n ≠ "GNU") family_names_seed ∧
    (∀ f, f ∈ p :: rest1 → CompilerFamily_instances loaded !! name f = Some f).
Proof.
  apply (all_families_preferred_first insertion_order newest_first
           (H := {| preferred_compilers := "GNU" |})).
  by_evaluation.
Defined.

(** C8.  With the four roles of the seed data registered, and whatever
    constructor calls, [add] calls and list statements follow in whatever
    order, [tau_required] yields the roles CC, CXX and FC, each once, and
    does not yield UPC. *)
Theorem tau_required_roles {St : Stores} (ops : list Op) :
  forallb (λ op, negb (makes_role op)) ops = true →
  tau_required (run ops (run role_seed module_start))
    ≡ₚ [CC_ROLE; CXX_ROLE; FC_ROLE] ∧
  NoDup (tau_required (run ops (run role_seed module_start))) ∧
  (UPC_ROLE ∉ tau_required (run ops (run role_seed module_start))) ∧
  (keyword <$> tau_required (run ops (run role_seed module_start)))
    ≡ₚ ["CC"; "CXX"; "FC"].
Proof.
  intros Hops.
  assert (tau_required (run ops (run role_seed module_start))
            ≡ₚ [CC_ROLE; CXX_ROLE; FC_ROLE]) as Hperm.
  { unfold tau_required, CompilerRole_all.
    rewrite run_roles by exact Hops. rewrite dict_itervalues_perm.
    by_evaluation. }
  split; [exact Hperm |]. rewrite Hperm. split; [by_evaluation |].
  split; by_evaluation.
Qed.

Lemma tau_required_roles_witness :
  tau_required (St := insertion_order) (run family_seed (run role_seed module_start))
    ≡ₚ [CC_ROLE; CXX_ROLE; FC_ROLE] ∧
  NoDup (tau_required (St := insertion_order)
           (run family_seed (run role_seed module_start))) ∧
  (UPC_ROLE ∉ tau_required (St := insertion_order)
                (run family_seed (run role_seed module_start))) ∧
  (keyword <$> tau_required (St := insertion_order)
                 (run family_seed (run role_seed module_start)))
    ≡ₚ ["CC"; "CXX"; "FC"].
Proof.
  apply (tau_required_roles (St := insertion_order) family_seed).
  vm_compute. reflexivity.
Defined.

(** C9.  Once the module is imported, [members(CXX_ROLE)] on the System
    family is the list of the instances for [c++], [cxx] and [CC], in that
    order, and these are the instances that the family holds under those
    commands. *)
Theorem members_cxx_system :
  CompilerFamily_instances loaded !! "System" = Some SYSTEM_COMPILERS ∧
  members SYSTEM_COMPILERS (ByRole CXX_ROLE)
    = inr (InfoList [ mkInfo "c++" "System" CXX_ROLE "System C++ compiler";
                      mkInfo "cxx" "System" CXX_ROLE "System C++ compiler";
                      mkInfo "CC" "System" CXX_ROLE "System C++ compiler" ]) ∧
  (λ c, members SYSTEM_COMPILERS (ByCommand c)) <$> ["c++"; "cxx"; "CC"]
    = [ inr (OneInfo (mkInfo "c++" "System" CXX_ROLE "System C++ compiler"));
        inr (OneInfo (mkInfo "cxx" "System" CXX_ROLE "System C++ compiler"));
        inr (OneInfo (mkInfo "CC" "System" CXX_ROLE "System C++ compiler")) ].
Proof. split; [| split]; vm_compute; reflexivity. Qed.

(** * Further properties of the knowledgebase *)

(** ** More on [find] *)

Lemma length_append (a b : string) :
  String.length (a +:+ b) = String.length a + String.length b.
Proof.
  induction a as [|x a IH]; [done |].
  change (String x a +:+ b) with (String x (a +:+ b)). simpl. by rewrite IH.
Qed.

Lemma substring_of_length (a b : string) :
  substring_of a b → String.length a ≤ String.length b.
Proof. intros (u & v & ->). rewrite !length_append. lia. Qed.

Lemma length_zero_empty (a : string) : String.length a = 0 → a = "".
Proof. by destruct a. Qed.

(** A string that occurs in a string of its own length is that string. *)
Lemma substring_of_same_length (a b : string) :
  substring_of a b → String.length b ≤ String.length a → a = b.
Proof.
  intros (u & v & ->). rewrite !length_append. intros Hlen.
  rewrite (length_zero_empty u), (length_zero_empty v) by lia.
  symmetry. exact (append_empty_r a).
Qed.

Lemma substring_of_empty (a : string) : substring_of a "" → a = "".
Proof. intros Ha. apply substring_of_same_length; [done | simpl; lia]. Qed.

Lemma empty_substring_of (b : string) : substring_of "" b.
Proof. by exists "", b. Qed.

(** Whenever some command occurs in the input, [find] returns the first
    of the instances with the longest such command: the loop for the exact
    match returns what the search among the candidates would return. *)
Lemma find_candidates (all : list CompilerInfo) (p : string) :
  (∃ i, i ∈ all ∧ substring_of (command i) (basename p)) →
  ∃ r, find all p = inr r ∧ first_longest all (basename p) r.
Proof.
  intros Hcand.
  destruct (decide (Exists (λ i, command i = basename p) all)) as [Hex | Hno].
  - apply Exists_exists in Hex as (i & Hi & Hc).
    destruct (find_exact all p i Hi Hc) as (n & j & Hn & Hj & Hfirst & Hfind).
    exists j. split; [done |].
    exists (take n all), (drop (S n) all).
    split; [by rewrite take_drop_middle |].
    split; [rewrite Hj; apply substring_of_refl |].
    unfold CompilerInfo_len. rewrite Hj. split.
    + intros x Hx Hsub. apply substring_of_length in Hsub as Hle.
      destruct (decide (String.length (command x) = String.length (basename p)))
        as [Heq | Hne]; [| lia].
      exfalso. apply list_elem_of_lookup in Hx as [m Hm].
      apply lookup_take_Some in Hm as [Hm Hlt].
      apply (Hfirst m x Hm Hlt). apply substring_of_same_length; [done | lia].
    + intros x _ Hsub. by apply substring_of_length.
  - apply find_approximate; [| done].
    intros i Hi Hc. apply Hno, Exists_exists. eauto.
Qed.

Lemma find_returns_first_longest {St : Stores} (s : Registry) (p : string)
    (r : CompilerInfo) :
  CompilerInfo_find s p = inr r ↔
  first_longest (CompilerInfo_all s) (basename p) r.
Proof.
  unfold CompilerInfo_find. split.
  - intros Hfind.
    destruct (find_candidates (CompilerInfo_all s) p) as (r' & Hr' & Hfirst).
    + destruct (decide (Exists (λ i, str_in (command i) (basename p) = true)
                          (CompilerInfo_all s))) as [Hex | Hno].
      * apply Exists_exists in Hex as (i & Hi & Hsub%str_in_spec). eauto.
      * assert (find (CompilerInfo_all s) p = inl KeyError) as Hraise.
        { apply find_raises. split; [done |]. intros i Hi Hsub%str_in_spec.
          apply Hno, Exists_exists. eauto. }
        congruence.
    + congruence.
  - intros Hfirst.
    destruct (find_candidates (CompilerInfo_all s) p) as (r' & Hr' & Hfirst').
    + destruct (first_longest_longest _ _ _ Hfirst) as (Hr & Hsub & _). eauto.
    + rewrite Hr'. f_equal. by eapply first_longest_unique.
Qed.

(** X1.  [find] returns [r] exactly when [r] is the first, in the order of
    iteration, of the instances whose command occurs in the final segment
    of the input with the greatest length; an exact match is the case in
    which that length is the length of the segment. *)
Theorem find_is_first_longest {St : Stores} (s : Registry) (p : string)
    (r : CompilerInfo) :
  CompilerInfo_find s p = inr r ↔
  first_longest (CompilerInfo_all s) (basename p) r.
Proof. apply find_returns_first_longest. Qed.

(** X2.  [find] looks at the final path segment only: a directory in
    front of a name without a slash changes nothing. *)
Theorem find_ignores_directory {St : Stores} (s : Registry) (d c : string) :
  has_char "/" c = false →
  CompilerInfo_find s (d +:+ String "/" c) = CompilerInfo_find s c.
Proof.
  intros Hc. unfold CompilerInfo_find, find.
  by rewrite (basename_join d c Hc), (basename_plain c Hc).
Qed.

Lemma find_ignores_directory_witness :
  CompilerInfo_find (St := insertion_order) loaded ("/usr/local/bin" +:+ String "/" "icpc")
    = CompilerInfo_find (St := insertion_order) loaded "icpc".
Proof.
  apply (find_ignores_directory (St := insertion_order) loaded "/usr/local/bin" "icpc").
  vm_compute. reflexivity.
Defined.

(** X3.  [find] succeeds on every input exactly when some instance has
    the empty command: the empty string occurs in every string, and
    nothing else occurs in the empty string. *)
Theorem find_total_iff_empty_command {St : Stores} (s : Registry) :
  (∀ p, ∃ r, CompilerInfo_find s p = inr r) ↔
  (∃ i, i ∈ CompilerInfo_instances s ∧ command i = "").
Proof.
  split.
  - intros Htotal. destruct (Htotal "") as [r Hr].
    apply find_returns_first_longest in Hr.
    apply first_longest_longest in Hr as (Hin & Hsub & _).
    exists r. split; [by apply elem_of_CompilerInfo_all |].
    by apply substring_of_empty.
  - intros (i & Hi & Hc) p.
    destruct (find_candidates (CompilerInfo_all s) p) as (r & Hr & _); [| eauto].
    exists i. split; [by apply elem_of_CompilerInfo_all |].
    rewrite Hc. apply empty_substring_of.
Qed.

(** X4.  When no instance has the empty command, [find] raises [KeyError]
    for the empty input and for every path that ends in a slash, whose
    final segment is empty. *)
Theorem find_empty_segment {St : Stores} (s : Registry) (d : string) :
  (∀ i, i ∈ CompilerInfo_instances s → command i ≠ "") →
  CompilerInfo_find s "" = inl KeyError ∧
  CompilerInfo_find s (d +:+ "/") = inl KeyError.
Proof.
  intros Hne.
  assert (∀ p, basename p = "" → CompilerInfo_find s p = inl KeyError) as Hempty.
  { intros p Hp. apply find_raises. split; [done |]. rewrite Hp.
    intros i Hi%elem_of_CompilerInfo_all Hsub%substring_of_empty.
    by apply (Hne i). }
  split; apply Hempty; [done |]. by apply (basename_join d "").
Qed.

Lemma find_empty_segment_witness :
  CompilerInfo_find (St := insertion_order) loaded "" = inl KeyError ∧
  CompilerInfo_find (St := insertion_order) loaded ("/usr/bin/gcc" +:+ "/")
    = inl KeyError.
Proof.
  apply (find_empty_segment (St := insertion_order) loaded "/usr/bin/gcc").
  apply Forall_forall. by_evaluation.
Defined.

(** ** More on [add] *)

(** X5.  A call of [add] succeeds exactly when its commands differ from
    one another and the family has none of them; any other call raises
    the error of a duplicate registration, also one that repeats a
    command that is new to the family. *)
Theorem add_succeeds_iff (self : CompilerFamily) (instances : list CompilerInfo)
    (r : CompilerRole) (commands : list string) :
  ((add self instances r commands).2 = inr tt ↔
   NoDup commands ∧ ∀ c, c ∈ commands → _info_by_command self !! c = None) ∧
  (∀ e, (add self instances r commands).2 = inl e →
        ∃ c, c ∈ commands ∧ e = already_member c self).
Proof.
  split; [split |].
  - revert self instances.
    induction commands as [|c cs IH]; intros self instances; simpl.
    + intros _. split; [constructor | intros ? ?%elem_of_nil; done].
    + destruct (_info_by_command self !! c) eqn:Hc; [done |].
      intros [Hnd Hfresh]%IH. split.
      * constructor; [| done]. intros Hin. specialize (Hfresh c Hin).
        rewrite set_info_lookup in Hfresh. by rewrite decide_True in Hfresh.
      * intros c' [-> | Hc']%elem_of_cons; [done |].
        specialize (Hfresh c' Hc'). rewrite set_info_lookup in Hfresh.
        by case_decide.
  - intros [Hnd Hfresh].
    destruct (add_ok self instances r commands Hnd Hfresh) as (self' & -> & _).
    done.
  - revert self instances.
    induction commands as [|c cs IH]; intros self instances e; simpl; [done |].
    destruct (_info_by_command self !! c) eqn:Hc.
    + intros [= <-]. exists c. split; [left | done].
    + intros (c' & Hc' & ->)%IH. exists c'. split; [by right | done].
Qed.

(** The effect of a call that succeeds, on both dictionaries. *)
Lemma add_success_effect (self : CompilerFamily) (instances : list CompilerInfo)
    (r : CompilerRole) (commands : list string) :
  NoDup commands →
  (∀ c, c ∈ commands → _info_by_command self !! c = None) →
  ∃ self',
    add self instances r commands
      = (self', instances ++ ((λ c, CompilerInfo_init c self r) <$> commands),
         inr tt) ∧
    default [] (_info_by_role self' !! keyword r)
      = default [] (_info_by_role self !! keyword r)
          ++ ((λ c, CompilerInfo_init c self r) <$> commands) ∧
    (commands ≠ [] → is_Some (_info_by_role self' !! keyword r)) ∧
    (∀ kw, kw ≠ keyword r → _info_by_role self' !! kw = _info_by_role self !! kw) ∧
    (∀ c, _info_by_command self' !! c
          = if decide (c ∈ commands) then Some (CompilerInfo_init c self r)
            else _info_by_command self !! c).
Proof.
  revert self instances.
  induction commands as [|c cs IH]; intros self instances Hnd Hfresh.
  - exists self. split; [simpl; by rewrite app_nil_r |].
    split; [simpl; by rewrite app_nil_r |].
    split; [done |]. split; [done |].
    intros c. destruct (decide (c ∈ [])) as [Hin | _]; [| done].
    by apply elem_of_nil in Hin.
  - apply NoDup_cons in Hnd as [Hc Hnd]. simpl. rewrite (Hfresh c) by left.
    set (info := CompilerInfo_init c self r).
    destruct (IH (set_info self r info) (track instances info)) as
      (self' & Hadd & Hrole & _ & Hother & Hcmd); [done | |].
    { intros c' Hc'. rewrite set_info_lookup. case_decide as Heq.
      - simpl in Heq. congruence.
      - apply Hfresh. by right. }
    exists self'. split.
    { rewrite Hadd. unfold track. by rewrite <- app_assoc. }
    assert (_info_by_role (set_info self r info) !! keyword r
            = Some (default [] (_info_by_role self !! keyword r) ++ [info]))
      as Hinfo by apply lookup_insert_eq.
    split.
    { rewrite Hrole, Hinfo. simpl. by rewrite <- app_assoc. }
    split.
    { intros _. destruct cs as [|c' cs'].
      - simpl in Hadd. injection Hadd as <-. rewrite Hinfo. eauto.
      - destruct (_info_by_role self' !! keyword r) as [l|] eqn:Hl; [eauto |].
        rewrite Hinfo in Hrole. simpl in Hrole.
        by destruct (default [] (_info_by_role self !! keyword r)). }
    split.
    { intros kw Hkw. rewrite (Hother kw Hkw). by apply lookup_insert_ne. }
    intros c0. rewrite Hcmd, set_info_lookup.
    destruct (decide (c0 ∈ cs)) as [Hin | Hnin].
    + rewrite decide_True by (by right). done.
    + destruct (decide (command info = c0)) as [Heq | Hne]; simpl in *.
      * rewrite decide_True by (rewrite Heq; left). by rewrite <- Heq.
      * rewrite decide_False; [done |].
        intros [-> | ?]%elem_of_cons; done.
Qed.

(** X6.  A call of [add] that succeeds appends the new instances, in the
    order of the commands, to the list of the role, after the instances
    that the role had, and to the instances of the index; then
    [members] of each command is its new instance, [members] of the role
    is the extended list, and both are in the family.  The other roles and
    the other commands of the family are as before. *)
Theorem add_registers_in_order (self : CompilerFamily)
    (instances : list CompilerInfo) (r : CompilerRole) (commands : list string) :
  NoDup commands →
  (∀ c, c ∈ commands → _info_by_command self !! c = None) →
  commands ≠ [] →
  ∃ self',
    add self instances r commands
      = (self', instances ++ ((λ c, CompilerInfo_init c self r) <$> commands),
         inr tt) ∧
    members self' (ByRole r)
      = inr (InfoList (default [] (_info_by_role self !! keyword r)
                         ++ ((λ c, CompilerInfo_init c self r) <$> commands))) ∧
    contains self' (ByRole r) = true ∧
    (∀ c, c ∈ commands →
          members self' (ByCommand c) = inr (OneInfo (CompilerInfo_init c self r)) ∧
          contains self' (ByCommand c) = true) ∧
    (∀ c, c ∉ commands →
          members self' (ByCommand c) = members self (ByCommand c)) ∧
    (∀ r', keyword r' ≠ keyword r →
           members self' (ByRole r') = members self (ByRole r')).
Proof.
  intros Hnd Hfresh Hne.
  destruct (add_success_effect self instances r commands Hnd Hfresh)
    as (self' & Hadd & Hrole & Hsome & Hother & Hcmd).
  exists self'. split; [done |].
  destruct (Hsome Hne) as [l Hl]. rewrite Hl in Hrole. simpl in Hrole.
  unfold members, contains, dict_get.
  split; [by rewrite Hl, Hrole |]. split.
  { rewrite Hl. apply bool_decide_eq_true. eauto. }
  split; [| split].
  - intros c Hc. rewrite Hcmd, decide_True by done. split; [done |].
    apply bool_decide_eq_true. eauto.
  - intros c Hc. by rewrite Hcmd, decide_False.
  - intros r' Hr'. by rewrite Hother.
Qed.

Lemma add_registers_in_order_witness :
  ∃ self',
    add GNU_COMPILERS (CompilerInfo_instances loaded) CXX_ROLE ["clang++"; "c++"]
      = (self', CompilerInfo_instances loaded
                  ++ ((λ c, CompilerInfo_init c GNU_COMPILERS CXX_ROLE)
                        <$> ["clang++"; "c++"]), inr tt) ∧
    members self' (ByRole CXX_ROLE)
      = inr (InfoList (default [] (_info_by_role GNU_COMPILERS !! keyword CXX_ROLE)
                         ++ ((λ c, CompilerInfo_init c GNU_COMPILERS CXX_ROLE)
                               <$> ["clang++"; "c++"]))) ∧
    contains self' (ByRole CXX_ROLE) = true ∧
    (∀ c, c ∈ ["clang++"; "c++"] →
          members self' (ByCommand c)
            = inr (OneInfo (CompilerInfo_init c GNU_COMPILERS CXX_ROLE)) ∧
          contains self' (ByCommand c) = true) ∧
    (∀ c, c ∉ ["clang++"; "c++"] →
          members self' (ByCommand c) = members GNU_COMPILERS (ByCommand c)) ∧
    (∀ r', keyword r' ≠ keyword CXX_ROLE →
           members self' (ByRole r') = members GNU_COMPILERS (ByRole r')).
Proof.
  apply (add_registers_in_order GNU_COMPILERS (CompilerInfo_instances loaded)
           CXX_ROLE ["clang++"; "c++"]).
  - by_evaluation.
  - apply Forall_forall. by_evaluation.
  - discriminate.
Defined.

(** ** [in] and [members] *)

(** X7.  [members] returns a value exactly for the keys that are [in] the
    family, a command or a role, and raises [KeyError] for every other
    key. *)
Theorem members_iff_contains (self : CompilerFamily) (key : member_key) :
  (contains self key = true ↔ ∃ v, members self key = inr v) ∧
  (contains self key = false ↔ members self key = inl KeyError).
Proof.
  unfold contains, members, dict_get.
  destruct key as [c | r].
  - destruct (_info_by_command self !! c) as [i|] eqn:Hc.
    + rewrite bool_decide_eq_true_2 by eauto.
      split; split; (done || eauto).
    + rewrite bool_decide_eq_false_2 by (by intros [? ?]).
      split; split; try done. by intros [v ?].
  - destruct (_info_by_role self !! keyword r) as [l|] eqn:Hr.
    + rewrite bool_decide_eq_true_2 by eauto.
      split; split; (done || eauto).
    + rewrite bool_decide_eq_false_2 by (by intros [? ?]).
      split; split; try done. by intros [v ?].
Qed.

(** ** The two dictionaries of a family *)

Lemma set_info_coherent (self : CompilerFamily) (r : CompilerRole) (c : string) :
  family_coherent self → _info_by_command self !! c = None →
  family_coherent (set_info self r (CompilerInfo_init c self r)).
Proof.
  intros [Hlists Hlisted Hdescr] Hc.
  set (info := CompilerInfo_init c self r).
  set (old := default [] (_info_by_role self !! keyword r)).
  assert (∀ i, i ∈ old →
            keyword (role i) = keyword r ∧
            _info_by_command self !! command i = Some i) as Hold.
  { unfold old. destruct (_info_by_role self !! keyword r) as [l|] eqn:Hl; simpl.
    - by destruct (Hlists _ l Hl) as (_ & _ & Hall).
    - intros i ?%elem_of_nil. done. }
  assert (NoDup old) as Hnd.
  { unfold old. destruct (_info_by_role self !! keyword r) as [l|] eqn:Hl; simpl.
    - by destruct (Hlists _ l Hl) as (_ & Hnd & _).
    - constructor. }
  assert (∀ i, _info_by_command self !! command i = Some i →
               _info_by_command (set_info self r info) !! command i = Some i)
    as Hkeep.
  { intros i Hi. rewrite set_info_lookup. case_decide as Heq; [| done].
    simpl in Heq. congruence. }
  split.
  - intros kw l. unfold set_info; simpl.
    intros [[<- <-] | [Hkw Hl]]%lookup_insert_Some.
    + split; [by intros [_ ?]%app_eq_nil |]. split.
      * apply NoDup_app. split; [done |]. split; [| apply NoDup_singleton].
        intros i Hi ->%list_elem_of_singleton.
        destruct (Hold _ Hi) as [_ Hinfo]. simpl in Hinfo. congruence.
      * intros i [Hi | ->%list_elem_of_singleton]%elem_of_app.
        -- destruct (Hold i Hi) as [? ?]. split; [done |]. by apply Hkeep.
        -- split; [done |]. apply lookup_insert_eq.
    + destruct (Hlists kw l Hl) as (? & ? & Hall). split; [done |].
      split; [done |]. intros i Hi. destruct (Hall i Hi) as [? ?].
      split; [done |]. by apply Hkeep.
  - intros c0 i. rewrite set_info_lookup. case_decide as Heq.
    + intros [= <-]. exists (old ++ [info]). split.
      * apply lookup_insert_eq.
      * apply elem_of_app. right. left.
    + intros Hi. destruct (Hlisted c0 i Hi) as (l & Hl & Hin).
      destruct (decide (keyword (role i) = keyword r)) as [Hkw | Hkw].
      * exists (old ++ [info]). unfold set_info; simpl. rewrite Hkw.
        split; [apply lookup_insert_eq |].
        apply elem_of_app. left. unfold old. rewrite <- Hkw, Hl. done.
      * exists l. unfold set_info; simpl. by rewrite lookup_insert_ne.
  - intros c0 i. rewrite set_info_lookup. case_decide as Heq.
    + intros [= <-]. done.
    + intros Hi. by apply Hdescr.
Qed.

Lemma add_coherent (self : CompilerFamily) (instances : list CompilerInfo)
    (r : CompilerRole) (commands : list string) :
  family_coherent self → family_coherent (add self instances r commands).1.1.
Proof.
  revert self instances.
  induction commands as [|c cs IH]; intros self instances Hself; simpl; [done |].
  destruct (_info_by_command self !! c) eqn:Hc; [done |].
  apply IH. by apply set_info_coherent.
Qed.

Lemma CompilerFamily_new_coherent (s : Registry) (n : string)
    (vf ipf lpf llf swf : flag_arg) :
  families_coherent s →
  families_coherent (CompilerFamily_new s n vf ipf lpf llf swf).1.
Proof.
  intros Hs. unfold CompilerFamily_new.
  destruct (CompilerFamily_instances s !! n) eqn:Hn; [done |].
  destruct (CompilerFamily_init _ _ _ _ _ _ _) as [[heap fam]|] eqn:Hinit;
    [| done].
  apply CompilerFamily_init_spec in Hinit as (_ & Hcmd & Hrole & _).
  intros k f. simpl.
  intros [[<- <-] | [_ Hf]]%lookup_insert_Some; [| by eapply Hs].
  split; intros ? ?; rewrite ?Hcmd, ?Hrole; done.
Qed.

Lemma step_coherent (s : Registry) (op : Op) :
  families_coherent s → families_coherent (step s op).1.
Proof.
  intros Hs. destruct op as [k l r | items | l items | n vf ipf lpf llf swf | k r cs];
    simpl.
  - unfold CompilerRole_new. by destruct (_ !! k).
  - done.
  - done.
  - pose proof (CompilerFamily_new_coherent s n vf ipf lpf llf swf Hs) as Hnew.
    by destruct (CompilerFamily_new s n vf ipf lpf llf swf) as [s' [e | f]].
  - unfold Registry_add.
    destruct (CompilerFamily_instances s !! k) as [self|] eqn:Hself; [| done].
    pose proof (add_coherent self (CompilerInfo_instances s) r cs (Hs _ _ Hself))
      as Hadd.
    destruct (add self _ r cs) as [[self' instances'] out]. simpl in *.
    intros k' f. simpl.
    intros [[<- <-] | [_ Hf]]%lookup_insert_Some; [done | by eapply Hs].
Qed.

Lemma reachable_coherent (s : Registry) : reachable s → families_coherent s.
Proof.
  intros [ops ->].
  assert (families_coherent module_start) as Hstart by (intros k f Hf; done).
  revert Hstart. generalize module_start.
  induction ops as [|op ops IH]; intros s Hs; [done |].
  simpl. apply IH. by apply step_coherent.
Qed.

(** X8.  In every reachable state a role is [in] a family exactly when
    the family holds an instance with that role keyword, and [members] of
    a role is never empty, repeats no instance, and lists exactly the
    instances of the family with that role keyword. *)
Theorem role_filled_iff (s : Registry) (k : string) (f : CompilerFamily)
    (r : CompilerRole) :
  reachable s →
  CompilerFamily_instances s !! k = Some f →
  (contains f (ByRole r) = true ↔
   ∃ c i, _info_by_command f !! c = Some i ∧ keyword (role i) = keyword r) ∧
  (∀ v, members f (ByRole r) = inr v →
        ∃ l, v = InfoList l ∧ l ≠ [] ∧ NoDup l ∧
             ∀ i, i ∈ l ↔ _info_by_command f !! command i = Some i ∧
                          keyword (role i) = keyword r).
Proof.
  intros Hs%reachable_coherent Hf. destruct (Hs k f Hf) as [Hlists Hlisted _].
  split.
  - unfold contains. rewrite bool_decide_eq_true. split.
    + intros [l Hl]. destruct (Hlists _ l Hl) as (Hne & _ & Hall).
      destruct l as [|i l]; [done |].
      destruct (Hall i) as [? ?]; [left |]. eauto.
    + intros (c & i & Hi & Hkw). destruct (Hlisted c i Hi) as (l & Hl & _).
      rewrite Hkw in Hl. eauto.
  - intros v. unfold members, dict_get.
    destruct (_info_by_role f !! keyword r) as [l|] eqn:Hl; [| done].
    intros [= <-]. exists l. destruct (Hlists _ l Hl) as (Hne & Hnd & Hall).
    repeat (split; [done |]). intros i.
    split; [intros Hi; by destruct (Hall i Hi) |].
    intros [Hi Hkw]. destruct (Hlisted _ i Hi) as (l' & Hl' & Hin).
    rewrite Hkw in Hl'. congruence.
Qed.

Lemma role_filled_iff_witness :
  (contains SYSTEM_COMPILERS (ByRole FC_ROLE) = true ↔
   ∃ c i, _info_by_command SYSTEM_COMPILERS !! c = Some i ∧
          keyword (role i) = keyword FC_ROLE) ∧
  (∀ v, members SYSTEM_COMPILERS (ByRole FC_ROLE) = inr v →
        ∃ l, v = InfoList l ∧ l ≠ [] ∧ NoDup l ∧
             ∀ i, i ∈ l ↔ _info_by_command SYSTEM_COMPILERS !! command i = Some i ∧
                          keyword (role i) = keyword FC_ROLE).
Proof.
  apply (role_filled_iff loaded "System" SYSTEM_COMPILERS FC_ROLE).
  - exists module_body. reflexivity.
  - vm_compute. reflexivity.
Defined.

(** X9.  In every reachable state the instance that [find] returns
    belongs to a registered family: the family that it names returns it
    from [members] of its command, lists it in [members] of its role, and
    has both [in] it; its description is the one made from the name of
    that family and the language of its role. *)
Theorem find_result_in_family {St : Stores} (s : Registry) (p : string)
    (r : CompilerInfo) :
  reachable s →
  CompilerInfo_find s p = inr r →
  ∃ f l,
    CompilerFamily_instances s !! family r = Some f ∧
    name f = family r ∧
    members f (ByCommand (command r)) = inr (OneInfo r) ∧
    contains f (ByCommand (command r)) = true ∧
    members f (ByRole (role r)) = inr (InfoList l) ∧ r ∈ l ∧
    contains f (ByRole (role r)) = true ∧
    short_descr r = family r +:+ " " +:+ language (role r) +:+ " compiler".
Proof.
  intros Hreach Hfind.
  pose proof (reachable_consistent s Hreach) as Hs.
  apply find_returns_first_longest, first_longest_longest in Hfind as (Hin & _ & _).
  apply elem_of_CompilerInfo_all in Hin.
  destruct (info_owner s Hs r Hin) as (f & Hf & Hr).
  destruct (reachable_coherent s Hreach _ f Hf) as [_ Hlisted Hdescr].
  destruct (Hlisted _ r Hr) as (l & Hl & Hrl).
  destruct (Hdescr _ r Hr) as (_ & Hfam & Hshort).
  exists f, l. unfold members, contains, dict_get. rewrite Hr, Hl.
  split; [done |]. split; [done |]. split; [done |].
  split; [apply bool_decide_eq_true; eauto |].
  split; [done |]. split; [done |].
  split; [apply bool_decide_eq_true; eauto |].
  by rewrite Hshort, Hfam.
Qed.

Lemma find_result_in_family_witness :
  ∃ f l,
    CompilerFamily_instances loaded
      !! family (mkInfo "pgf90" "PGI" FC_ROLE "PGI Fortran compiler") = Some f ∧
    name f = family (mkInfo "pgf90" "PGI" FC_ROLE "PGI Fortran compiler") ∧
    members f (ByCommand (command (mkInfo "pgf90" "PGI" FC_ROLE "PGI Fortran compiler")))
      = inr (OneInfo (mkInfo "pgf90" "PGI" FC_ROLE "PGI Fortran compiler")) ∧
    contains f (ByCommand (command (mkInfo "pgf90" "PGI" FC_ROLE "PGI Fortran compiler")))
      = true ∧
    members f (ByRole (role (mkInfo "pgf90" "PGI" FC_ROLE "PGI Fortran compiler")))
      = inr (InfoList l) ∧
    mkInfo "pgf90" "PGI" FC_ROLE "PGI Fortran compiler" ∈ l ∧
    contains f (ByRole (role (mkInfo "pgf90" "PGI" FC_ROLE "PGI Fortran compiler")))
      = true ∧
    short_descr (mkInfo "pgf90" "PGI" FC_ROLE "PGI Fortran compiler")
      = family (mkInfo "pgf90" "PGI" FC_ROLE "PGI Fortran compiler") +:+ " "
          +:+ language (role (mkInfo "pgf90" "PGI" FC_ROLE "PGI Fortran compiler"))
          +:+ " compiler".
Proof.
  apply (find_result_in_family (St := insertion_order) loaded "mpipgf90-wrapper"
           (mkInfo "pgf90" "PGI" FC_ROLE "PGI Fortran compiler")).
  - exists module_body. reflexivity.
  - vm_compute. reflexivity.
Defined.

(** ** Iteration of a family and of the families *)

Lemma keyed_commands (s : Registry) (k : string) (f : CompilerFamily)
    (l : list (string * CompilerInfo)) :
  consistent s → CompilerFamily_instances s !! k = Some f →
  (∀ c i, (c, i) ∈ l → _info_by_command f !! c = Some i) →
  command <$> l.*2 = l.*1.
Proof.
  intros Hs Hf. induction l as [|[c i] l IH]; intros Hl; [done |]. csimpl.
  rewrite IH by (intros; apply Hl; by right).
  f_equal. apply (command_key s Hs k f c i Hf). apply Hl. left.
Qed.

(** X10.  In every reachable state the iteration of a family yields each
    of its instances once, and yields the instances of the index that name
    the family: no instance of another family, and none left out. *)
Theorem family_iter_once {St : Stores} (s : Registry) (k : string)
    (f : CompilerFamily) :
  reachable s →
  CompilerFamily_instances s !! k = Some f →
  NoDup (CompilerFamily_iter f) ∧
  CompilerFamily_iter f ≡ₚ filter (λ i, family i = k) (CompilerInfo_all s) ∧
  (∀ i, i ∈ CompilerFamily_iter f ↔ _info_by_command f !! command i = Some i).
Proof.
  intros Hs%reachable_consistent Hf.
  assert (∀ i, i ∈ CompilerFamily_iter f ↔
               _info_by_command f !! command i = Some i) as Hin.
  { intros i. unfold CompilerFamily_iter. rewrite dict_itervalues_perm.
    rewrite list_elem_of_fmap. split.
    - intros ([c j] & -> & Hcj%elem_of_map_to_list). simpl.
      by destruct (command_key s Hs k f c j Hf Hcj) as (-> & _).
    - intros Hi. exists (command i, i). split; [done |].
      by apply elem_of_map_to_list. }
  assert (NoDup (CompilerFamily_iter f)) as Hnd.
  { unfold CompilerFamily_iter. rewrite dict_itervalues_perm.
    apply (NoDup_fmap_1 command).
    rewrite (keyed_commands s k f) by (done || (intros c i; apply elem_of_map_to_list)).
    apply NoDup_fst_map_to_list. }
  split; [done |]. split; [| done].
  apply NoDup_Permutation; [done | |].
  - apply NoDup_filter. unfold CompilerInfo_all. rewrite set_iter_perm.
    apply (info_once s Hs).
  - intros i. rewrite Hin, list_elem_of_filter, elem_of_CompilerInfo_all. split.
    + intros Hi. destruct (command_key s Hs k f _ i Hf Hi) as (_ & ? & ?). done.
    + intros [Hk Hi]. destruct (info_owner s Hs i Hi) as (g & Hg & Hc).
      rewrite Hk in Hg. congruence.
Qed.

Lemma family_iter_once_witness :
  NoDup (CompilerFamily_iter (St := insertion_order) CRAY_COMPILERS) ∧
  CompilerFamily_iter (St := insertion_order) CRAY_COMPILERS
    ≡ₚ filter (λ i, family i = "Cray")
         (CompilerInfo_all (St := insertion_order) loaded) ∧
  (∀ i, i ∈ CompilerFamily_iter (St := insertion_order) CRAY_COMPILERS ↔
        _info_by_command CRAY_COMPILERS !! command i = Some i).
Proof.
  apply (family_iter_once (St := insertion_order) loaded "Cray" CRAY_COMPILERS).
  - exists module_body. reflexivity.
  - vm_compute. reflexivity.
Defined.

(** X11.  In every reachable state in which the host's preferred family
    is registered, [CompilerFamily.all] yields that family first and then
    every other registered family, each once: the objects yielded are the
    registered instances, one per name. *)
Theorem all_yields_every_family {St : Stores} {H : Host} (s : Registry)
    (p : CompilerFamily) :
  reachable s →
  CompilerFamily_instances s !! preferred_compilers = Some p →
  ∃ rest,
    CompilerFamily_all s = inr (p :: rest) ∧
    NoDup (name <$> (p :: rest)) ∧
    (∀ f, f ∈ p :: rest ↔ CompilerFamily_instances s !! name f = Some f) ∧
    length (p :: rest) = size (CompilerFamily_instances s).
Proof.
  intros Hs%reachable_consistent Hp.
  destruct (CompilerFamily_all_spec s p Hs Hp) as (rest & Hall & Hvals & Hnames & _).
  exists rest. split; [done |]. split; [| split].
  - rewrite Hnames. apply NoDup_fst_map_to_list.
  - intros f. rewrite Hvals, list_elem_of_fmap. split.
    + intros ([k g] & -> & Hkg%elem_of_map_to_list). simpl.
      by rewrite (family_key s Hs _ _ Hkg).
    + intros Hf. exists (name f, f). split; [done |].
      by apply elem_of_map_to_list.
  - rewrite Hvals, length_fmap. apply length_map_to_list.
Qed.

Lemma all_yields_every_family_witness :
  ∃ rest,
    CompilerFamily_all (St := newest_first)
      (H := {| preferred_compilers := "Intel" |}) loaded
      = inr (family_object loaded "Intel" :: rest) ∧
    NoDup (name <$> (family_object loaded "Intel" :: rest)) ∧
    (∀ f, f ∈ family_object loaded "Intel" :: rest ↔
          CompilerFamily_instances loaded !! name f = Some f) ∧
    length (family_object loaded "Intel" :: rest)
      = size (CompilerFamily_instances loaded).
Proof.
  apply (all_yields_every_family (St := newest_first)
           (H := {| preferred_compilers := "Intel" |}) loaded
           (family_object loaded "Intel")).
  - exists module_body. reflexivity.
  - vm_compute. reflexivity.
Defined.

(** X12.  In every reachable state in which the hosts' preferred families
    are registered, [family_names] is the list of the keys of the
    registered families, each once, in ascending order; it is the same
    list whatever family the host prefers and in whatever order the store
    of the families iterates. *)
Theorem family_names_sorted (St1 St2 : Stores) (H1 H2 : Host) (s : Registry) :
  reachable s →
  is_Some (CompilerFamily_instances s !! preferred_compilers (Host := H1)) →
  is_Some (CompilerFamily_instances s !! preferred_compilers (Host := H2)) →
  ∃ names,
    family_names (St := St1) (H := H1) s = inr names ∧
    family_names (St := St2) (H := H2) s = inr names ∧
    StronglySorted String.le names ∧
    NoDup names ∧
    (∀ n, n ∈ names ↔ is_Some (CompilerFamily_instances s !! n)).
Proof.
  intros Hs%reachable_consistent [p1 Hp1] [p2 Hp2].
  destruct (CompilerFamily_all_spec (St := St1) (H := H1) s p1 Hs Hp1)
    as (rest1 & Hall1 & _ & Hnames1 & _).
  destruct (CompilerFamily_all_spec (St := St2) (H := H2) s p2 Hs Hp2)
    as (rest2 & Hall2 & _ & Hnames2 & _).
  exists (sorted (CompilerFamily_str <$> (p1 :: rest1))).
  unfold family_names. rewrite Hall1, Hall2.
  assert (sorted (CompilerFamily_str <$> (p1 :: rest1))
            ≡ₚ (map_to_list (CompilerFamily_instances s)).*1) as Hperm.
  { unfold sorted. rewrite merge_sort_Permutation. exact Hnames1. }
  split; [done |]. split.
  { f_equal. unfold sorted. apply (Sorted_unique String.le).
    - apply Sorted_merge_sort, _.
    - apply Sorted_merge_sort, _.
    - rewrite !merge_sort_Permutation.
      change ((name <$> (p2 :: rest2)) ≡ₚ (name <$> (p1 :: rest1))).
      by rewrite Hnames1, Hnames2. }
  split; [apply StronglySorted_merge_sort; apply _ |].
  split; [rewrite Hperm; apply NoDup_fst_map_to_list |].
  intros n. rewrite Hperm, list_elem_of_fmap. split.
  - intros ([k f] & -> & Hkf%elem_of_map_to_list). simpl. eauto.
  - intros [f Hf]. exists (n, f). split; [done |]. by apply elem_of_map_to_list.
Qed.

Lemma family_names_sorted_witness :
  ∃ names,
    family_names (St := insertion_order)
      (H := {| preferred_compilers := "GNU" |}) loaded = inr names ∧
    family_names (St := newest_first)
      (H := {| preferred_compilers := "Cray" |}) loaded = inr names ∧
    StronglySorted String.le names ∧
    NoDup names ∧
    (∀ n, n ∈ names ↔ is_Some (CompilerFamily_instances loaded !! n)).
Proof.
  apply (family_names_sorted insertion_order newest_first
           {| preferred_compilers := "GNU" |}
           {| preferred_compilers := "Cray" |} loaded).
  - exists module_body. reflexivity.
  - vm_compute. eexists. reflexivity.
  - vm_compute. eexists. reflexivity.
Defined.

(** The names of the seed data, as [family_names] lists them. *)
Lemma family_names_loaded :
  family_names (St := insertion_order)
    (H := {| preferred_compilers := "GNU" |}) loaded
  = inr ["Cray"; "GNU"; "IBM"; "Intel"; "PGI"; "System"].
Proof. vm_compute. reflexivity. Qed.

(** ** The constructor and its arguments *)

Lemma CompilerFamily_init_copies (heap : list (list string)) (n : string)
    (vf ipf lpf llf swf : flag_arg) :
  (∀ a, arg_loc a (flag_arg_of a vf ipf lpf llf swf) < length heap) →
  ∃ heap' fam,
    CompilerFamily_init heap n vf ipf lpf llf swf = Some (heap', fam) ∧
    (∀ a, heap' !! flags_of a fam
          = heap !! arg_loc a (flag_arg_of a vf ipf lpf llf swf)) ∧
    (∀ l, l < length heap → heap' !! l = heap !! l).
Proof.
  intros Hargs.
  destruct (lookup_lt_is_Some_2 heap _ (Hargs VersionFlags)) as [v1 Hv1].
  destruct (lookup_lt_is_Some_2 heap _ (Hargs IncludePathFlags)) as [v2 Hv2].
  destruct (lookup_lt_is_Some_2 heap _ (Hargs LibraryPathFlags)) as [v3 Hv3].
  destruct (lookup_lt_is_Some_2 heap _ (Hargs LinkLibraryFlags)) as [v4 Hv4].
  destruct (lookup_lt_is_Some_2 heap _ (Hargs ShowWrapperFlags)) as [v5 Hv5].
  simpl in Hv1, Hv2, Hv3, Hv4, Hv5.
  assert (∀ (more : list (list string)) a,
            (heap ++ more) !! arg_loc a (flag_arg_of a vf ipf lpf llf swf)
            = heap !! arg_loc a (flag_arg_of a vf ipf lpf llf swf)) as Hold.
  { intros more a. apply lookup_app_l, Hargs. }
  pose proof (Hold [v1] IncludePathFlags) as E2.
  pose proof (Hold [v1; v2] LibraryPathFlags) as E3.
  pose proof (Hold [v1; v2; v3] LinkLibraryFlags) as E4.
  pose proof (Hold [v1; v2; v3; v4] ShowWrapperFlags) as E5.
  simpl in E2, E3, E4, E5.
  exists (heap ++ [v1; v2; v3; v4; v5]). eexists. split.
  - unfold CompilerFamily_init, copy_list, alloc.
    rewrite Hv1. simpl. rewrite E2, Hv2. simpl.
    rewrite <- (app_assoc heap [v1] [v2]). simpl. rewrite E3, Hv3. simpl.
    rewrite <- (app_assoc heap [v1; v2] [v3]). simpl. rewrite E4, Hv4. simpl.
    rewrite <- (app_assoc heap [v1; v2; v3] [v4]). simpl. rewrite E5, Hv5. simpl.
    rewrite <- (app_assoc heap [v1; v2; v3; v4] [v5]). simpl. reflexivity.
  - split.
    + intros a. destruct a; simpl; rewrite ?length_app; simpl;
        rewrite lookup_app_r by lia;
        [ replace (length heap - length heap) with 0 by lia
        | replace (length heap + 1 - length heap) with 1 by lia
        | replace (length heap + 2 - length heap) with 2 by lia
        | replace (length heap + 3 - length heap) with 3 by lia
        | replace (length heap + 4 - length heap) with 4 by lia ];
        simpl; congruence.
    + intros l Hl. by apply lookup_app_l.
Qed.

(** X13.  A constructor call with a name that has no instance, on
    arguments that are list objects, registers a family without commands
    and without roles, whose five flag lists are new objects with the
    items of the arguments, or of the default lists for the arguments left
    out.  The lists that existed keep their items, and a later mutation of
    an argument or of a default list does not reach the lists of the
    family. *)
Theorem constructor_copies_flags (s : Registry) (n : string)
    (vf ipf lpf llf swf : flag_arg) :
  CompilerFamily_instances s !! n = None →
  (∀ a, arg_loc a (flag_arg_of a vf ipf lpf llf swf) < length (lists s)) →
  ∃ s' f,
    CompilerFamily_new s n vf ipf lpf llf swf = (s', inr f) ∧
    CompilerFamily_instances s' !! n = Some f ∧
    name f = n ∧
    (∀ key, contains f key = false) ∧
    (∀ a, lists s' !! flags_of a f
          = lists s !! arg_loc a (flag_arg_of a vf ipf lpf llf swf)) ∧
    (∀ l, l < length (lists s) → lists s' !! l = lists s !! l) ∧
    (∀ a a' items,
       lists (mutate_list s' (arg_loc a (flag_arg_of a vf ipf lpf llf swf)) items)
         !! flags_of a' f
       = lists s' !! flags_of a' f).
Proof.
  intros Hn Hargs.
  destruct (CompilerFamily_init_copies (lists s) n vf ipf lpf llf swf Hargs)
    as (heap' & fam & Hinit & Hcopy & Hold).
  pose proof (CompilerFamily_init_spec _ _ _ _ _ _ _ _ _ Hinit)
    as (Hname & Hcmd & Hrole & Hflags & _).
  unfold CompilerFamily_new. rewrite Hn, Hinit.
  eexists _, fam. split; [reflexivity |]. simpl.
  split; [apply lookup_insert_eq |]. split; [done |]. split.
  { intros [c | r]; unfold contains; rewrite ?Hcmd, ?Hrole;
      apply bool_decide_eq_false; by intros [? ?]. }
  split; [done |]. split; [done |].
  intros a a' items. apply list_lookup_insert_ne.
  specialize (Hargs a). rewrite Hflags. lia.
Qed.

Lemma constructor_copies_flags_witness :
  ∃ s' f,
    CompilerFamily_new loaded "Clang" Omitted (Passed 1) Omitted Omitted (Passed 30)
      = (s', inr f) ∧
    CompilerFamily_instances s' !! "Clang" = Some f ∧
    name f = "Clang" ∧
    (∀ key, contains f key = false) ∧
    (∀ a, lists s' !! flags_of a f
          = lists loaded
              !! arg_loc a (flag_arg_of a Omitted (Passed 1) Omitted Omitted (Passed 30))) ∧
    (∀ l, l < length (lists loaded) → lists s' !! l = lists loaded !! l) ∧
    (∀ a a' items,
       lists (mutate_list s'
                (arg_loc a (flag_arg_of a Omitted (Passed 1) Omitted Omitted (Passed 30)))
                items)
         !! flags_of a' f
       = lists s' !! flags_of a' f).
Proof.
  apply (constructor_copies_flags loaded "Clang" Omitted (Passed 1) Omitted
           Omitted (Passed 30)).
  - vm_compute. reflexivity.
  - intros a. destruct a; vm_compute; lia.
Defined.

(** ** Lookup after further registrations *)

(** X14.  Statements that follow never make a lookup fail: an input for
    which [find] returns an instance still has a result after any further
    constructor calls, [add] calls and list statements, and the command of
    the later result occurs in the input and is at least as long. *)
Theorem find_survives_registration {St : Stores} (s : Registry)
    (ops : list Op) (p : string) (r : CompilerInfo) :
  CompilerInfo_find s p = inr r →
  ∃ r', CompilerInfo_find (run ops s) p = inr r' ∧
        substring_of (command r') (basename p) ∧
        CompilerInfo_len r ≤ CompilerInfo_len r'.
Proof.
  intros Hfind%find_returns_first_longest.
  apply first_longest_longest in Hfind as (Hin & Hsub & _).
  assert (r ∈ CompilerInfo_all (run ops s)) as Hin'.
  { apply elem_of_CompilerInfo_all. apply elem_of_CompilerInfo_all in Hin.
    destruct (run_instances ops s) as [new ->]. apply elem_of_app. by left. }
  destruct (find_candidates (CompilerInfo_all (run ops s)) p)
    as (r' & Hfind' & Hfirst); [eauto |].
  apply first_longest_longest in Hfirst as (_ & Hsub' & Hmax).
  exists r'. split; [done |]. split; [done |]. by apply Hmax.
Qed.

Lemma find_survives_registration_witness :
  ∃ r', CompilerInfo_find (St := insertion_order)
          (run [AddCommands "GNU" CXX_ROLE ["g++-4.7"]] loaded) "g++-4.7" = inr r' ∧
        substring_of (command r') (basename "g++-4.7") ∧
        CompilerInfo_len (mkInfo "g++" "GNU" CXX_ROLE "GNU C++ compiler")
          ≤ CompilerInfo_len r'.
Proof.
  apply (find_survives_registration (St := insertion_order) loaded
           [AddCommands "GNU" CXX_ROLE ["g++-4.7"]] "g++-4.7"
           (mkInfo "g++" "GNU" CXX_ROLE "GNU C++ compiler")).
  vm_compute. reflexivity.
Defined.
